(** * lsystem.py: rewriting engine, turtle interpreter and rasterizer

    A shallow embedding of [src/lsystem.py] (class [LSystem] and its inner
    class [Turtle]) and the properties of its natural-language specification.

    Modelling conventions.
    - Python floats are idealised as real numbers ([R]); [math.cos],
      [math.sin] and [math.radians] are the real functions.  No statement
      below depends on rounding error.
    - Python ints ([n], [iter], [thickness]) are [Z].
    - A Python 2 [str] is a [string]; iterating over it yields its
      characters.
    - The [rules] dict is a [gmap string string]; the default [rules=None]
      is [None : option (gmap string string)].
    - The numpy array [vectors] of shape (k, 2) is the list of its rows.
    - A method that mutates its object returns an [outcome]: the object
      after a normal return, or the exception raised together with the
      object as the exception left it.
    - Headings are real numbers, so they are finite: the [ValueError] that
      [math.cos] and [math.sin] raise on an infinite heading (an angle such
      as [1e999], or overflow after many large turns) has no counterpart
      here.  For that reason no statement below says that a pass returns
      or that only certain exceptions can arise in the code; such
      statements are made for passes that return, or about exceptions a
      call does not raise.
    - [load_file] is modelled from the parse result on (the list of
      [(key, val)] pairs) up to the arguments it passes to the constructor,
      [_parse_args] from the integers of its second argument on, and the
      main program as its loop over the targets; parsing of text, files and
      pygame are outside. *)

From Stdlib Require Import Reals Lra Lia ZArith List Ascii String.
From stdpp Require Import base option list gmap strings sorting.

Import ListNotations.
Local Open Scope Z_scope.
Local Open Scope string_scope.
Local Open Scope list_scope.

(** ** Exceptions and results *)

Inductive exn : Type :=
| IndexError
| AttributeError
| AssertionError
| ValueError.

(** A computation that returns a value or raises. *)
Inductive result (A : Type) : Type :=
| Ok (a : A)
| Raise (e : exn).
Arguments Ok {A} a.
Arguments Raise {A} e.

(** A mutating method call: the object after the call, or the exception and
    the object as it stands when the exception propagates. *)
Inductive outcome (S : Type) : Type :=
| Done (s : S)
| Failed (e : exn) (s : S).
Arguments Done {S} s.
Arguments Failed {S} e s.

Definition obj {S : Type} (o : outcome S) : S :=
  match o with Done s => s | Failed _ s => s end.

Definition raised {S : Type} (o : outcome S) : option exn :=
  match o with Done _ => None | Failed e _ => Some e end.

(** Sequencing of two calls on the same object: the second is not made when
    the first raised. *)
Definition and_then {S : Type} (o : outcome S) (f : S -> outcome S) : outcome S :=
  match o with
  | Done s => f s
  | Failed e s => Failed e s
  end.

Definition result_bind {A B : Type} (r : result A) (f : A -> result B) : result B :=
  match r with
  | Ok a => f a
  | Raise e => Raise e
  end.

(** A list comprehension [[f(x) for x in xs]] whose body may raise. *)
Fixpoint comprehension {A B : Type} (f : A -> result B) (xs : list A) : result (list B) :=
  match xs with
  | [] => Ok []
  | x :: xs' =>
      result_bind (f x) (fun y =>
      result_bind (comprehension f xs') (fun ys => Ok (y :: ys)))
  end.

(** ** Numeric helpers *)

(** [math.radians]. *)
Definition radians (deg : R) : R := (deg * PI / 180)%R.

(** Python 2 [round]: to the nearest integer, halves away from zero. *)
Definition py_round (x : R) : R :=
  if Rle_dec 0 x then IZR (Zfloor (x + / 2)) else (- IZR (Zfloor (- x + / 2)))%R.

(** [list.pop()]: removes and returns the last element. *)
Definition list_pop {A : Type} (l : list A) : result (A * list A) :=
  match rev l with
  | [] => Raise IndexError
  | x :: r => Ok (x, rev r)
  end.

(** ** class Turtle *)

Module Turtle.

Record t : Type := mk {
  pos : R * R;
  angle : R;
  states : list ((R * R) * R);
  vectors : list (R * R)
}.

(** [__init__] *)
Definition init : t := mk (0, 0)%R 0%R [] [].

Definition turn (self : t) (a : R) : t :=
  mk (pos self) (angle self + radians a)%R (states self) (vectors self).

Definition move (self : t) (draw : bool) : t :=
  let x_move := cos (angle self) in
  let y_move := sin (angle self) in
  let '(old_x, old_y) := pos self in
  let '(new_x, new_y) := ((old_x + x_move)%R, (old_y + y_move)%R) in
  let vectors' :=
    if draw then vectors self ++ [(old_x, old_y); (new_x, new_y)]
    else vectors self in
  mk (new_x, new_y) (angle self) (states self) vectors'.

Definition push (self : t) : t :=
  mk (pos self) (angle self) (states self ++ [(pos self, angle self)]) (vectors self).

Definition pop (self : t) : result t :=
  match list_pop (states self) with
  | Raise e => Raise e
  | Ok ((new_pos, new_angle), rest) => Ok (mk new_pos new_angle rest (vectors self))
  end.

Definition get_vectors (self : t) : list (R * R) := vectors self.

Definition clear_vectors (self : t) : t :=
  mk (pos self) (angle self) (states self) [].

End Turtle.

(** ** Strings, dicts and numpy reductions as the code uses them *)

(** Iterating over a [str] yields its one-character strings. *)
Definition chars (s : string) : list string :=
  map (fun c => String c EmptyString) (list_ascii_of_string s).

(** [''.join(l)] *)
Definition join (l : list string) : string := String.concat "" l.

(** [d.get(k, dflt)]; on [None] the attribute lookup itself raises. *)
Definition dict_get (d : option (gmap string string)) (k dflt : string) : result string :=
  match d with
  | None => Raise AttributeError
  | Some m => Ok (default dflt (m !! k))
  end.

(** [v[i]] on the rows of an array. *)
Definition row (v : list (R * R)) (i : nat) : result (R * R) :=
  match v !! i with
  | Some p => Ok p
  | None => Raise IndexError
  end.

(** [v.max(axis=0)] and [v.min(axis=0)]: column-wise reduction, which numpy
    refuses on an array with no rows. *)
Definition max_step (acc p : R * R) : R * R :=
  (Rmax (fst acc) (fst p), Rmax (snd acc) (snd p)).

Definition min_step (acc p : R * R) : R * R :=
  (Rmin (fst acc) (fst p), Rmin (snd acc) (snd p)).

Definition reduce_axis0 (step : R * R -> R * R -> R * R) (v : list (R * R)) : result (R * R) :=
  match v with
  | [] => Raise ValueError
  | r :: rest => Ok (fold_left step rest r)
  end.

Definition np_max_axis0 : list (R * R) -> result (R * R) := reduce_axis0 max_step.
Definition np_min_axis0 : list (R * R) -> result (R * R) := reduce_axis0 min_step.

(** [range(0, stop, 2)] *)
Definition range_by_2 (stop : nat) : list nat :=
  map (fun k => 2 * k)%nat (seq 0 (Nat.div2 (stop + 1))).

(** ** What pygame receives *)

(** One [pygame.draw.line(s, c, start, end, width)] call; the colour is the
    [hsla] tuple assigned just before it. *)
Record draw_line : Type := mk_line {
  line_hsla : R * R * R * R;
  line_start : R * R;
  line_end : R * R;
  line_width : Z
}.

(** The surface as requested from pygame and the lines drawn on it, in
    order. *)
Record surface : Type := mk_surface {
  surface_size : R * R;
  surface_lines : list draw_line
}.

(** ** class LSystem *)

Module LSystem.

Record t : Type := mk {
  angle : R;
  thickness : Z;
  axiom : string;
  state : string;
  n : Z;
  rules : option (gmap string string);
  turtle : Turtle.t
}.

(** [__init__(axiom, rules=None, angle=90, thickness=1)] *)
Definition init (axiom0 : string) (rules0 : option (gmap string string))
    (angle0 : R) (thickness0 : Z) : t :=
  mk angle0 thickness0 axiom0 axiom0 0 rules0 Turtle.init.

Definition set_turtle (self : t) (tu : Turtle.t) : t :=
  mk (angle self) (thickness self) (axiom self) (state self) (n self) (rules self) tu.

Definition set_state (self : t) (st : string) : t :=
  mk (angle self) (thickness self) (axiom self) st (n self) (rules self) (turtle self).

Definition set_n (self : t) (k : Z) : t :=
  mk (angle self) (thickness self) (axiom self) (state self) k (rules self) (turtle self).

(** The [symbols] table built in [step]: description and action. *)
Definition symbols (self : t) (c : ascii) : option (string * (Turtle.t -> result Turtle.t)) :=
  if Ascii.eqb c "+" then Some ("turnleft", fun tu => Ok (Turtle.turn tu (- angle self)))
  else if Ascii.eqb c "-" then Some ("turnright", fun tu => Ok (Turtle.turn tu (angle self)))
  else if Ascii.eqb c "F" then Some ("forward", fun tu => Ok (Turtle.move tu true))
  else if Ascii.eqb c "f" then Some ("skip_forward", fun tu => Ok (Turtle.move tu false))
  else if Ascii.eqb c "[" then Some ("push_state", fun tu => Ok (Turtle.push tu))
  else if Ascii.eqb c "]" then Some ("pop_state", Turtle.pop)
  else None.

(** [''.join([self.rules.get(x, x) for x in self.state])] *)
Definition rewritten (self : t) : result string :=
  result_bind
    (comprehension (fun x => dict_get (rules self) x x) (chars (state self)))
    (fun l => Ok (join l)).

(** The loop [for c in self.state: if c in symbols: func(self.turtle)]. *)
Fixpoint interpret (self : t) (cs : list ascii) (tu : Turtle.t) : outcome Turtle.t :=
  match cs with
  | [] => Done tu
  | c :: cs' =>
      match symbols self c with
      | Some (_, func) =>
          match func tu with
          | Ok tu' => interpret self cs' tu'
          | Raise e => Failed e tu
          end
      | None => interpret self cs' tu
      end
  end.

(** One iteration of the loop of [step]. *)
Definition step_body (self : t) : outcome t :=
  let self1 := set_turtle self (Turtle.clear_vectors (turtle self)) in
  match rewritten self1 with
  | Raise e => Failed e self1
  | Ok st =>
      let self2 := set_state self1 st in
      match interpret self2 (list_ascii_of_string (state self2)) (turtle self2) with
      | Failed e tu => Failed e (set_turtle self2 tu)
      | Done tu =>
          let self3 := set_turtle self2 tu in
          Done (set_n self3 (n self3 + 1)%Z)
      end
  end.

Fixpoint step_loop (k : nat) (self : t) : outcome t :=
  match k with
  | O => Done self
  | S k' => and_then (step_body self) (step_loop k')
  end.

(** [step(iter=1)]: [xrange(iter)] is empty for [iter <= 0]. *)
Definition step (iter : Z) (self : t) : outcome t :=
  step_loop (Z.to_nat iter) self.

Definition step_to (target : Z) (self : t) : outcome t :=
  if (target <? n self)%Z then Failed AssertionError self
  else step (target - n self)%Z self.

Definition reset (self : t) : t :=
  let self1 := set_turtle self (Turtle.clear_vectors (turtle self)) in
  let self2 := set_state self1 (axiom self1) in
  set_n self2 0.

Definition get_vectors (self : t) : list (R * R) :=
  Turtle.get_vectors (turtle self).

Definition _get_vector_bounds (self : t) : result (R * R * R * R) :=
  let v := get_vectors self in
  result_bind (np_max_axis0 v) (fun maxs =>
  result_bind (np_min_axis0 v) (fun mins =>
  Ok (fst mins, snd mins, fst maxs, snd maxs))).

Definition x_mul : R := 5%R.
Definition y_mul : R := 5%R.
Definition buffer_space : R := 10%R.

(** The body of the drawing loop of [write_png] at index [i]. *)
Definition draw_at (self : t) (x_offset y_offset : R) (num_v i : nat) : result draw_line :=
  result_bind (row (get_vectors self) i) (fun p1 =>
  result_bind (row (get_vectors self) (i + 1)) (fun p2 =>
  let '(x1, y1) := p1 in
  let '(x2, y2) := p2 in
  let x1 := (py_round x1 * x_mul + x_offset)%R in
  let x2 := (py_round x2 * x_mul + x_offset)%R in
  let y1 := (py_round y1 * y_mul + y_offset)%R in
  let y2 := (py_round y2 * y_mul + y_offset)%R in
  let hue := (INR i / INR num_v * 360)%R in
  Ok (mk_line (hue, 50, 50, 100)%R (x1, y1) (x2, y2) (thickness self)))).

(** [write_png]: the surface handed to [pygame.image.save]. *)
Definition write_png (self : t) : result surface :=
  result_bind (_get_vector_bounds self) (fun '(x_min, y_min, x_max, y_max) =>
  let width := ((x_max - x_min) * x_mul + buffer_space * 2)%R in
  let height := ((y_max - y_min) * y_mul + buffer_space * 2)%R in
  let x_offset := (- x_min * x_mul + buffer_space)%R in
  let y_offset := (- y_min * y_mul + buffer_space)%R in
  let num_v := length (get_vectors self) in
  result_bind (comprehension (draw_at self x_offset y_offset num_v) (range_by_2 num_v))
    (fun lines => Ok (mk_surface (width, height) lines))).

End LSystem.

(** ** Notions used in the statements, and example objects *)

(** The replacement of one symbol under a rule table. *)
Definition replacement (m : gmap string string) (x : string) : string :=
  default x (m !! x).

(** One rewriting pass under a rule table that is a mapping. *)
Definition substitute (m : gmap string string) (s : string) : string :=
  join (map (replacement m) (chars s)).

Definition fibonacci : LSystem.t :=
  LSystem.init "A" (Some (<["A" := "AB"]> (<["B" := "A"]> ∅))) 90 1.

(** [s.count(x)] on the characters of a sequence. *)
Fixpoint count_symbol (x : ascii) (cs : list ascii) : nat :=
  match cs with
  | [] => 0
  | c :: cs' => (if Ascii.eqb c x then 1 else 0) + count_symbol x cs'
  end.

(** The segments held by an array of rows [p1a, p1b, p2a, p2b, ...]. *)
Fixpoint segments (v : list (R * R)) : list ((R * R) * (R * R)) :=
  match v with
  | p1 :: p2 :: rest => (p1, p2) :: segments rest
  | _ => []
  end.

Definition quadratic_koch : LSystem.t :=
  LSystem.init "F-F-F-F" (Some (<["F" := "F-F+F+FF-F-F+F"]> ∅)) 90 1.

Definition line_F : LSystem.t := LSystem.init "F" (Some ∅) 90 1.
Definition open_bracket : LSystem.t := LSystem.init "[" (Some ∅) 90 1.
Definition left_turn : LSystem.t := LSystem.init "+" (Some ∅) 90 1.

Definition unbalanced : LSystem.t := LSystem.init "F]" (Some ∅) 90 1.

(** The methods of an [LSystem] object that a caller can invoke. *)
Inductive method : Type :=
| Step (iter : Z)
| StepTo (target : Z)
| Reset
| GetVectors
| WritePng.

Definition call (m : method) (self : LSystem.t) : outcome LSystem.t :=
  match m with
  | Step iter => LSystem.step iter self
  | StepTo target => LSystem.step_to target self
  | Reset => Done (LSystem.reset self)
  | GetVectors => Done self
  | WritePng =>
      match LSystem.write_png self with
      | Ok _ => Done self
      | Raise e => Failed e self
      end
  end.

(** Calls made one after the other, up to the first that raises. *)
Fixpoint calls (ms : list method) (self : LSystem.t) : outcome LSystem.t :=
  match ms with
  | [] => Done self
  | m :: ms' => and_then (call m self) (calls ms')
  end.

(** The value a computation returned, or a default when it raised. *)
Definition value {A : Type} (r : result A) (d : A) : A :=
  match r with Ok a => a | Raise _ => d end.

Definition skip_only : LSystem.t := LSystem.init "f+f" (Some ∅) 90 1.

(** The mapping in the claim's words: a coordinate is scaled and offset, and
    the result is rounded. *)
Definition pixel_rounded_after (c mul offset : R) : R := py_round (c * mul + offset).

Definition sixty : LSystem.t := LSystem.init "-fF" (Some ∅) 60 1.

(** An object that was built by [init] and advanced to generation [n] is the
    object that [n] iterations make from the initial one. *)
Definition advanced_from (start self : LSystem.t) : Prop :=
  (0 <= LSystem.n self)%Z
  /\ LSystem.step_loop (Z.to_nat (LSystem.n self)) start = Done self.

(** ** Further notions: bracket depth *)

(** The depth of the save-stack after the symbols [cs], starting from depth
    [d]; [None] when some ["]"] comes at depth 0. *)
Fixpoint depth_after (d : nat) (cs : list ascii) : option nat :=
  match cs with
  | [] => Some d
  | c :: cs' =>
      if Ascii.eqb c "[" then depth_after (S d) cs'
      else if Ascii.eqb c "]" then
        match d with
        | O => None
        | S d' => depth_after d' cs'
        end
      else depth_after d cs'
  end.

(** ** The command line: [_parse_args] and the main loop *)

(** [l.remove(x)]: removes the first occurrence, [ValueError] without one. *)
Fixpoint list_remove (x : Z) (l : list Z) : result (list Z) :=
  match l with
  | [] => Raise ValueError
  | y :: l' =>
      if (y =? x)%Z then Ok l'
      else result_bind (list_remove x l') (fun r => Ok (y :: r))
  end.

(** What the part of [_parse_args] that builds [nums] ends in: the list, an
    exception, or the usage message followed by the call of [die], a name
    the file does not define. *)
Inductive parse_outcome : Type :=
| Parsed (nums : list Z)
| ParseRaise (e : exn)
| UsageAbort.

(** The loop [for num_arg in num_args] of [_parse_args], over the integers
    [int(num_arg)]. *)
Fixpoint collect_nums (num_args : list Z) (nums : list Z) : parse_outcome :=
  match num_args with
  | [] => Parsed nums
  | n :: rest =>
      if (n >? 0)%Z then collect_nums rest (nums ++ [n])
      else if (n <? 0)%Z then
        match list_remove (- n) nums with
        | Ok nums' => collect_nums rest nums'
        | Raise e => ParseRaise e
        end
      else UsageAbort
  end.

(** The loop, [assert len(nums) > 0] and [nums.sort()]. *)
Definition parse_nums (num_args : list Z) : parse_outcome :=
  match collect_nums num_args [] with
  | Parsed nums =>
      if (0 <? length nums)%nat then Parsed (merge_sort Z.le nums)
      else ParseRaise AssertionError
  | other => other
  end.

(** The loop of the main program: [ls.step_to(n)], then
    [ls.write_png(outfile)], for each [n] of [nums]. *)
Definition main_loop (nums : list Z) (ls : LSystem.t) : outcome LSystem.t :=
  calls (flat_map (fun n => [StepTo n; WritePng]) nums) ls.

(** ** [load_file]: from the parsed lines to the arguments of the constructor *)

(** A [(key, val)] pair of the parse result. *)
Inductive parsed_line : Type :=
| PStart (val : string)
| PAngle (val : R)
| PThickness (val : Z)
| PRule (rule_from rule_to : string)
| POther (key : string).

(** The variables [start], [angle], [thickness] and [rules] of [load_file]. *)
Record loaded : Type := mk_loaded {
  loaded_start : option string;
  loaded_angle : R;
  loaded_thickness : Z;
  loaded_rules : gmap string string
}.

(** The body of the loop [for key, val in p]. *)
Definition load_line (acc : loaded) (line : parsed_line) : loaded :=
  match line with
  | PStart val =>
      mk_loaded (Some val) (loaded_angle acc) (loaded_thickness acc) (loaded_rules acc)
  | PAngle val =>
      mk_loaded (loaded_start acc) val (loaded_thickness acc) (loaded_rules acc)
  | PThickness val =>
      mk_loaded (loaded_start acc) (loaded_angle acc) val (loaded_rules acc)
  | PRule rule_from rule_to =>
      mk_loaded (loaded_start acc) (loaded_angle acc) (loaded_thickness acc)
        (<[rule_from := rule_to]> (loaded_rules acc))
  | POther _ => acc
  end.

(** The loop of [load_file] from the defaults [start = None], [angle = 90],
    [thickness = 1], [rules = {}]; its result is what [load_file] passes to
    [cls(start, rules, angle, thickness)]. *)
Definition load_lines (p : list parsed_line) : loaded :=
  fold_left load_line p (mk_loaded None 90 1 ∅).

(** The value of the last line that [sel] selects. *)
Fixpoint last_selected {A : Type} (sel : parsed_line -> option A) (p : list parsed_line)
    : option A :=
  match p with
  | [] => None
  | line :: rest =>
      match last_selected sel rest with
      | Some a => Some a
      | None => sel line
      end
  end.

Definition start_of (line : parsed_line) : option string :=
  match line with PStart val => Some val | _ => None end.

Definition angle_of (line : parsed_line) : option R :=
  match line with PAngle val => Some val | _ => None end.

Definition thickness_of (line : parsed_line) : option Z :=
  match line with PThickness val => Some val | _ => None end.

Definition rule_of (key : string) (line : parsed_line) : option string :=
  match line with
  | PRule rule_from rule_to => if String.eqb rule_from key then Some rule_to else None
  | _ => None
  end.

(** ** A further example object *)

Definition forward_turn : LSystem.t := LSystem.init "F+" (Some ∅) 90 1.

(** * Properties *)

(** ** Sequencing *)

Lemma and_then_assoc {S : Type} (o : outcome S) (f g : S -> outcome S) :
  and_then (and_then o f) g = and_then o (fun s => and_then (f s) g).
Proof. destruct o; reflexivity. Qed.

Lemma and_then_done {S : Type} (o : outcome S) : and_then o Done = o.
Proof. destruct o; reflexivity. Qed.

Lemma step_loop_add (a b : nat) (self : LSystem.t) :
  LSystem.step_loop (a + b) self
  = and_then (LSystem.step_loop a self) (LSystem.step_loop b).
Proof.
  revert self. induction a as [|a IH]; intros self; simpl.
  - reflexivity.
  - rewrite and_then_assoc. destruct (LSystem.step_body self) as [s1|e s1]; simpl.
    + apply IH.
    + reflexivity.
Qed.

Lemma step_add (a b : Z) (self : LSystem.t) :
  (0 <= a)%Z -> (0 <= b)%Z ->
  LSystem.step (a + b) self = and_then (LSystem.step a self) (LSystem.step b).
Proof.
  intros Ha Hb. unfold LSystem.step.
  rewrite Z2Nat.inj_add by assumption. apply step_loop_add.
Qed.

(** ** The rewriting pass as a substitution *)

Lemma append_empty_r (x : string) : String.append x "" = x.
Proof.
  induction x as [|c x IH]; [reflexivity|].
  change (String c (String.append x "") = String c x). now rewrite IH.
Qed.

Lemma append_assoc (x y z : string) :
  String.append (String.append x y) z = String.append x (String.append y z).
Proof.
  induction x as [|c x IH]; [reflexivity|].
  change (String c (String.append (String.append x y) z)
          = String c (String.append x (String.append y z))).
  now rewrite IH.
Qed.

Lemma join_cons (x : string) (l : list string) :
  join (x :: l) = String.append x (join l).
Proof.
  unfold join. destruct l as [|y l]; cbn.
  - symmetry. apply append_empty_r.
  - reflexivity.
Qed.

Lemma join_app (l1 l2 : list string) :
  join (l1 ++ l2) = String.append (join l1) (join l2).
Proof.
  induction l1 as [|x l1 IH].
  - reflexivity.
  - rewrite <- app_comm_cons, !join_cons, IH. symmetry. apply append_assoc.
Qed.

Lemma chars_cons (c : ascii) (s : string) :
  chars (String c s) = String c EmptyString :: chars s.
Proof. reflexivity. Qed.

Lemma chars_app (s1 s2 : string) :
  chars (String.append s1 s2) = chars s1 ++ chars s2.
Proof.
  induction s1 as [|c s1 IH]; [reflexivity|].
  change (String.append (String c s1) s2) with (String c (String.append s1 s2)).
  rewrite !chars_cons, IH. reflexivity.
Qed.

Lemma join_chars (s : string) : join (chars s) = s.
Proof.
  induction s as [|c s IH].
  - reflexivity.
  - rewrite chars_cons, join_cons, IH. reflexivity.
Qed.

Lemma substitute_nil (m : gmap string string) : substitute m "" = "".
Proof. reflexivity. Qed.

Lemma substitute_cons (m : gmap string string) (c : ascii) (s : string) :
  substitute m (String c s)
  = String.append (replacement m (String c EmptyString)) (substitute m s).
Proof. unfold substitute. rewrite chars_cons, map_cons, join_cons. reflexivity. Qed.

Lemma substitute_app (m : gmap string string) (s1 s2 : string) :
  substitute m (String.append s1 s2)
  = String.append (substitute m s1) (substitute m s2).
Proof. unfold substitute. rewrite chars_app, map_app, join_app. reflexivity. Qed.

Lemma substitute_empty (s : string) : substitute ∅ s = s.
Proof.
  unfold substitute.
  rewrite (map_ext _ (fun x => x)), map_id; [apply join_chars|].
  intros x. unfold replacement. now rewrite lookup_empty.
Qed.

Lemma comprehension_total {A B : Type} (f : A -> B) (xs : list A) :
  comprehension (fun x => Ok (f x)) xs = Ok (map f xs).
Proof.
  induction xs as [|x xs IH]; simpl; [reflexivity | now rewrite IH].
Qed.

Lemma rewritten_mapping (self : LSystem.t) (m : gmap string string) :
  LSystem.rules self = Some m ->
  LSystem.rewritten self = Ok (substitute m (LSystem.state self)).
Proof.
  intros Hm. unfold LSystem.rewritten, dict_get. rewrite Hm.
  rewrite (comprehension_total (fun x => default x (m !! x))). reflexivity.
Qed.

Lemma rewritten_None_nonempty (self : LSystem.t) :
  LSystem.rules self = None -> LSystem.state self <> "" ->
  LSystem.rewritten self = Raise AttributeError.
Proof.
  intros Hr Hs. unfold LSystem.rewritten. rewrite Hr.
  destruct (LSystem.state self) as [|c s]; [congruence | reflexivity].
Qed.

Lemma rewritten_empty_state (self : LSystem.t) :
  LSystem.state self = "" -> LSystem.rewritten self = Ok "".
Proof. intros Hs. unfold LSystem.rewritten. rewrite Hs. reflexivity. Qed.

(** The symbol sequence is set by the rewriting before any symbol is
    interpreted, so it is the substituted one whether or not the
    interpretation that follows raises. *)
Lemma step_body_state (self : LSystem.t) (m : gmap string string) :
  LSystem.rules self = Some m ->
  LSystem.state (obj (LSystem.step_body self)) = substitute m (LSystem.state self).
Proof.
  intros Hm. unfold LSystem.step_body.
  rewrite (rewritten_mapping _ m) by exact Hm.
  match goal with |- context [LSystem.interpret ?s ?cs ?tu] =>
    destruct (LSystem.interpret s cs tu) end; reflexivity.
Qed.

(** ** The interpretation loop *)

Lemma segments_length_even (v : list (R * R)) (k : nat) :
  length v = (2 * k)%nat -> length (segments v) = k.
Proof.
  revert v. induction k as [|k IH]; intros v Hv.
  - destruct v; [reflexivity | discriminate].
  - destruct v as [|p1 [|p2 rest]]; simpl in Hv; try lia.
    simpl. f_equal. apply IH. lia.
Qed.

Lemma interpret_ext (s1 s2 : LSystem.t) (cs : list ascii) (tu : Turtle.t) :
  LSystem.angle s1 = LSystem.angle s2 ->
  LSystem.interpret s1 cs tu = LSystem.interpret s2 cs tu.
Proof.
  intros Ha. revert tu. induction cs as [|c cs IH]; intros tu; simpl.
  - reflexivity.
  - unfold LSystem.symbols. rewrite Ha.
    repeat match goal with
           | |- context [Ascii.eqb c ?x] => destruct (Ascii.eqb c x)
           end;
      try (destruct (Turtle.pop tu)); auto.
Qed.

Lemma interpret_app (self : LSystem.t) (cs1 cs2 : list ascii) (tu : Turtle.t) :
  LSystem.interpret self (cs1 ++ cs2) tu
  = and_then (LSystem.interpret self cs1 tu) (LSystem.interpret self cs2).
Proof.
  revert tu. induction cs1 as [|c cs1 IH]; intros tu; simpl.
  - reflexivity.
  - destruct (LSystem.symbols self c) as [[d func]|]; [|apply IH].
    destruct (func tu) as [tu'|e]; [apply IH | reflexivity].
Qed.

(** What one action of the table does to the array of rows: only ["F"]
    adds to it, and it adds the old and the new position. *)
Lemma symbol_vectors (self : LSystem.t) (c : ascii) (d : string)
    (func : Turtle.t -> result Turtle.t) (tu tu' : Turtle.t) :
  LSystem.symbols self c = Some (d, func) -> func tu = Ok tu' ->
  Turtle.vectors tu'
  = Turtle.vectors tu
    ++ (if Ascii.eqb c "F" then [Turtle.pos tu; Turtle.pos tu'] else []).
Proof.
  unfold LSystem.symbols.
  destruct (Ascii.eqb_spec c "+") as [->|_];
    [intros [= <- <-] [= <-]; simpl; now rewrite app_nil_r|].
  destruct (Ascii.eqb_spec c "-") as [->|_];
    [intros [= <- <-] [= <-]; simpl; now rewrite app_nil_r|].
  destruct (Ascii.eqb_spec c "F") as [->|_].
  { intros [= <- <-] [= <-]. unfold Turtle.move.
    destruct (Turtle.pos tu) as [x y]. reflexivity. }
  destruct (Ascii.eqb_spec c "f") as [->|_].
  { intros [= <- <-] [= <-]. unfold Turtle.move.
    destruct (Turtle.pos tu) as [x y]. simpl. now rewrite app_nil_r. }
  destruct (Ascii.eqb_spec c "[") as [->|_];
    [intros [= <- <-] [= <-]; simpl; now rewrite app_nil_r|].
  destruct (Ascii.eqb_spec c "]") as [->|_]; [|discriminate].
  intros [= <- <-]. unfold Turtle.pop.
  destruct (list_pop (Turtle.states tu)) as [[[p a] rest]|e]; [|discriminate].
  intros [= <-]. simpl. now rewrite app_nil_r.
Qed.

Lemma interpret_vectors_length (self : LSystem.t) (cs : list ascii) (tu tu' : Turtle.t) :
  LSystem.interpret self cs tu = Done tu' ->
  length (Turtle.vectors tu')
  = (length (Turtle.vectors tu) + 2 * count_symbol "F" cs)%nat.
Proof.
  revert tu. induction cs as [|c cs IH]; intros tu; simpl.
  - intros [= <-]. lia.
  - destruct (LSystem.symbols self c) as [[d func]|] eqn:Hsym.
    + destruct (func tu) as [tu1|e] eqn:Hf; [|discriminate].
      intros Hrun. rewrite (IH _ Hrun), (symbol_vectors _ _ _ _ _ _ Hsym Hf).
      rewrite length_app. destruct (Ascii.eqb c "F"); simpl; lia.
    + intros Hrun. rewrite (IH _ Hrun).
      assert (Ascii.eqb c "F" = false) as ->; [|lia].
      unfold LSystem.symbols in Hsym.
      repeat match type of Hsym with
             | context [Ascii.eqb c ?x] => destruct (Ascii.eqb c x) eqn:?
             end; try discriminate; reflexivity.
Qed.

Lemma step_body_done_inv (self self' : LSystem.t) :
  LSystem.step_body self = Done self' ->
  exists st tu,
    LSystem.rewritten self = Ok st
    /\ LSystem.interpret self (list_ascii_of_string st)
         (Turtle.clear_vectors (LSystem.turtle self)) = Done tu
    /\ self' = LSystem.mk (LSystem.angle self) (LSystem.thickness self)
                 (LSystem.axiom self) st (LSystem.n self + 1)%Z
                 (LSystem.rules self) tu.
Proof.
  unfold LSystem.step_body.
  change (LSystem.rewritten (LSystem.set_turtle self _)) with (LSystem.rewritten self).
  destruct (LSystem.rewritten self) as [st|e]; [|discriminate].
  simpl.
  rewrite (interpret_ext _ self) by reflexivity.
  destruct (LSystem.interpret self _ _) as [tu|e tu] eqn:Hi; [|discriminate].
  intros [= <-]. exists st, tu. repeat split. exact Hi.
Qed.

Lemma step_body_mapping (self : LSystem.t) (m : gmap string string) :
  LSystem.rules self = Some m ->
  LSystem.step_body self
  = let st := substitute m (LSystem.state self) in
    match LSystem.interpret self (list_ascii_of_string st)
            (Turtle.clear_vectors (LSystem.turtle self)) with
    | Done tu =>
        Done (LSystem.mk (LSystem.angle self) (LSystem.thickness self)
                (LSystem.axiom self) st (LSystem.n self + 1)%Z (LSystem.rules self) tu)
    | Failed e tu =>
        Failed e (LSystem.mk (LSystem.angle self) (LSystem.thickness self)
                    (LSystem.axiom self) st (LSystem.n self) (LSystem.rules self) tu)
    end.
Proof.
  intros Hm. unfold LSystem.step_body.
  change (LSystem.rewritten (LSystem.set_turtle self _)) with (LSystem.rewritten self).
  rewrite (rewritten_mapping _ m Hm). simpl.
  rewrite (interpret_ext _ self) by reflexivity.
  destruct (LSystem.interpret self _ _); reflexivity.
Qed.

Lemma step_body_segments (self self' : LSystem.t) :
  LSystem.step_body self = Done self' ->
  length (LSystem.get_vectors self')
  = (2 * count_symbol "F" (list_ascii_of_string (LSystem.state self')))%nat.
Proof.
  intros H. destruct (step_body_done_inv _ _ H) as (st & tu & _ & Hi & ->).
  unfold LSystem.get_vectors, Turtle.get_vectors. simpl.
  rewrite (interpret_vectors_length _ _ _ _ Hi). reflexivity.
Qed.

Lemma symbols_other (self : LSystem.t) (c : ascii) :
  c <> "+"%char -> c <> "-"%char -> c <> "F"%char -> c <> "f"%char ->
  c <> "["%char -> c <> "]"%char ->
  LSystem.symbols self c = None.
Proof.
  intros. unfold LSystem.symbols.
  repeat match goal with
         | |- context [Ascii.eqb c ?x] => destruct (Ascii.eqb_spec c x); [congruence|]
         end.
  reflexivity.
Qed.

(** C6: the segments of one interpretation pass are as many as the ["F"]
    symbols of the sequence interpreted.  A pass starts from a cleared
    array; when it returns, the array holds one segment per ["F"].  This is
    so for the pass made by an iteration of [step]; and symbol by symbol:
    ["F"] appends exactly the segment from the old to the new position,
    ["f"] moves the position and appends nothing, and no other symbol
    changes the array. *)
Theorem C6_segments_count_F (self : LSystem.t) (cs : list ascii) (tu tu' : Turtle.t) :
  LSystem.interpret self cs (Turtle.clear_vectors tu) = Done tu' ->
  length (segments (Turtle.get_vectors tu')) = count_symbol "F" cs
  /\ (forall self1 self2, LSystem.step_body self1 = Done self2 ->
        length (segments (LSystem.get_vectors self2))
        = count_symbol "F" (list_ascii_of_string (LSystem.state self2)))
  /\ (forall t0, Turtle.vectors (Turtle.move t0 true)
        = Turtle.vectors t0 ++ [Turtle.pos t0; Turtle.pos (Turtle.move t0 true)])
  /\ (forall t0, Turtle.vectors (Turtle.move t0 false) = Turtle.vectors t0
        /\ Turtle.pos (Turtle.move t0 false)
           = ((fst (Turtle.pos t0) + cos (Turtle.angle t0))%R,
              (snd (Turtle.pos t0) + sin (Turtle.angle t0))%R))
  /\ (forall c t0 t1, c <> "F"%char ->
        LSystem.interpret self [c] t0 = Done t1 ->
        Turtle.vectors t1 = Turtle.vectors t0).
Proof.
  intros Hrun. repeat split.
  - apply segments_length_even. unfold Turtle.get_vectors.
    rewrite (interpret_vectors_length _ _ _ _ Hrun). reflexivity.
  - intros self1 self2 H. apply segments_length_even.
    exact (step_body_segments self1 self2 H).
  - intros t0. unfold Turtle.move. destruct (Turtle.pos t0). reflexivity.
  - unfold Turtle.move. destruct (Turtle.pos t0). reflexivity.
  - unfold Turtle.move. destruct (Turtle.pos t0). reflexivity.
  - intros c t0 t1 Hc. simpl.
    destruct (LSystem.symbols self c) as [[d func]|] eqn:Hsym.
    + destruct (func t0) as [t2|e] eqn:Hf; [|discriminate].
      intros [= <-]. rewrite (symbol_vectors _ _ _ _ _ _ Hsym Hf).
      destruct (Ascii.eqb_spec c "F"); [congruence | apply app_nil_r].
    + now intros [= <-].
Qed.

Lemma C6_segments_count_F_witness :
  length (segments (Turtle.get_vectors
    (obj (LSystem.interpret quadratic_koch (list_ascii_of_string "F[+Ff]-XF")
            (Turtle.clear_vectors Turtle.init)))))
  = 3%nat.
Proof.
  exact (proj1 (C6_segments_count_F quadratic_koch (list_ascii_of_string "F[+Ff]-XF")
                  Turtle.init _ eq_refl)).
Defined.

Example quadratic_koch_generation_1 :
  LSystem.state (obj (LSystem.step 1 quadratic_koch))
  = "F-F+F+FF-F-F+F-F-F+F+FF-F-F+F-F-F+F+FF-F-F+F-F-F+F+FF-F-F+F"
  /\ raised (LSystem.step 1 quadratic_koch) = None
  /\ length (segments (LSystem.get_vectors (obj (LSystem.step 1 quadratic_koch)))) = 32%nat.
Proof.
  assert (Hst : substitute (<["F" := "F-F+F+FF-F-F+F"]> ∅) "F-F-F-F"
                = "F-F+F+FF-F-F+F-F-F+F+FF-F-F+F-F-F+F+FF-F-F+F-F-F+F+FF-F-F+F")
    by (vm_compute; reflexivity).
  unfold LSystem.step. simpl LSystem.step_loop.
  rewrite (step_body_mapping quadratic_koch _ eq_refl).
  change (LSystem.state quadratic_koch) with "F-F-F-F". rewrite Hst.
  cbv zeta.
  destruct (LSystem.interpret _ _ _) as [tu|e tu] eqn:Hi.
  - repeat split. simpl obj. apply segments_length_even.
    change (length (Turtle.vectors tu) = (2 * 32)%nat).
    rewrite (interpret_vectors_length _ _ _ _ Hi). reflexivity.
  - exfalso. revert Hi. simpl. discriminate.
Qed.

(** ** The turtle across passes *)

Lemma step_body_rewritten (self : LSystem.t) (st : string) :
  LSystem.rewritten self = Ok st ->
  LSystem.step_body self
  = match LSystem.interpret self (list_ascii_of_string st)
            (Turtle.clear_vectors (LSystem.turtle self)) with
    | Done tu =>
        Done (LSystem.mk (LSystem.angle self) (LSystem.thickness self)
                (LSystem.axiom self) st (LSystem.n self + 1)%Z (LSystem.rules self) tu)
    | Failed e tu =>
        Failed e (LSystem.mk (LSystem.angle self) (LSystem.thickness self)
                    (LSystem.axiom self) st (LSystem.n self) (LSystem.rules self) tu)
    end.
Proof.
  intros Hst. unfold LSystem.step_body.
  change (LSystem.rewritten (LSystem.set_turtle self _)) with (LSystem.rewritten self).
  rewrite Hst. simpl.
  rewrite (interpret_ext _ self) by reflexivity.
  destruct (LSystem.interpret self _ _); reflexivity.
Qed.

Lemma step_first_iteration_fails (self self' : LSystem.t) (e : exn) (iter : Z) :
  (1 <= iter)%Z -> LSystem.step_body self = Failed e self' ->
  LSystem.step iter self = Failed e self'.
Proof.
  intros Hiter Hbody. unfold LSystem.step.
  destruct (Z.to_nat iter) as [|k] eqn:Hk; [lia|].
  simpl. rewrite Hbody. reflexivity.
Qed.

(** Evaluation of one iteration on an object whose rule table is the empty
    dict and whose symbol sequence is a literal. *)
Ltac step_empty_rules :=
  match goal with
  | |- context [LSystem.step_body ?s] => rewrite (step_body_mapping s ∅ eq_refl)
  end;
  cbn [LSystem.state LSystem.turtle LSystem.angle LSystem.thickness LSystem.axiom
       LSystem.n LSystem.rules LSystem.init LSystem.reset LSystem.set_turtle
       LSystem.set_state LSystem.set_n Turtle.clear_vectors Turtle.pos Turtle.angle
       Turtle.states Turtle.vectors];
  rewrite substitute_empty; cbv zeta;
  cbn [LSystem.interpret list_ascii_of_string LSystem.symbols Ascii.eqb Bool.eqb
       Turtle.move Turtle.turn Turtle.push Turtle.pop Turtle.clear_vectors
       Turtle.pos Turtle.angle Turtle.states Turtle.vectors Turtle.init
       list_pop rev app and_then LSystem.angle LSystem.init LSystem.step_loop].

Ltac read_object :=
  cbn [obj raised LSystem.get_vectors Turtle.get_vectors LSystem.turtle LSystem.state
       LSystem.n Turtle.vectors Turtle.pos Turtle.angle Turtle.states].

(** C1: evaluation at [LSystem("F", {})], [step(2)].  Both passes interpret
    the sequence ["F"].  The first draws the segment (0,0)-(1,0); the second
    begins at the position the first one ended at and draws (1,0)-(2,0),
    where a turtle starting afresh draws (0,0)-(1,0) again.  Likewise the
    save-stack left by ["["] and the heading left by ["+"] are still there
    after the pass: [step] clears the array of rows only. *)
Theorem C1_turtle_carried_over :
  raised (LSystem.step 2 line_F) = None
  /\ LSystem.state (obj (LSystem.step 2 line_F)) = "F"
  /\ LSystem.get_vectors (obj (LSystem.step 1 line_F)) = [(0, 0); (1, 0)]%R
  /\ LSystem.get_vectors (obj (LSystem.step 2 line_F)) = [(1, 0); (2, 0)]%R
  /\ Turtle.get_vectors (obj (LSystem.interpret line_F (list_ascii_of_string "F") Turtle.init))
     = [(0, 0); (1, 0)]%R
  /\ Turtle.states (LSystem.turtle (obj (LSystem.step 1 open_bracket))) = [((0, 0), 0)]%R
  /\ Turtle.angle (LSystem.turtle (obj (LSystem.step 1 left_turn))) = (- (PI / 2))%R.
Proof.
  unfold LSystem.step, line_F, open_bracket, left_turn.
  change (Z.to_nat 2) with 2%nat. change (Z.to_nat 1) with 1%nat.
  cbn [LSystem.step_loop].
  repeat step_empty_rules. read_object.
  cbn [LSystem.interpret list_ascii_of_string LSystem.symbols Ascii.eqb Bool.eqb
       Turtle.move Turtle.turn Turtle.clear_vectors Turtle.pos Turtle.angle
       Turtle.states Turtle.vectors Turtle.init LSystem.angle LSystem.init
       app obj Turtle.get_vectors].
  rewrite cos_0, sin_0. unfold radians.
  repeat split; repeat f_equal; lra.
Qed.

(** ** Popping an empty save-stack *)

(** C2, as stated, fails at [LSystem("F]", {})]: [step(1)] raises
    [IndexError] at the ["]"], and the segment drawn by the ["F"] before it
    is still what [get_vectors] returns afterwards. *)
Lemma C2_partial_geometry_remains :
  raised (LSystem.step 1 unbalanced) = Some IndexError
  /\ LSystem.get_vectors (obj (LSystem.step 1 unbalanced)) = [(0, 0); (1, 0)]%R
  /\ LSystem.get_vectors (obj (LSystem.step 1 unbalanced)) <> [].
Proof.
  unfold LSystem.step, unbalanced. change (Z.to_nat 1) with 1%nat.
  cbn [LSystem.step_loop]. step_empty_rules. read_object.
  rewrite cos_0, sin_0.
  repeat split; [repeat f_equal; lra | discriminate].
Qed.

(** C2, amended: when the sequence an iteration has rewritten to is
    [pre ++ "]" :: post] and interpreting [pre] leaves the save-stack empty,
    [step] (for any count of at least one) raises [IndexError] at the ["]"]:
    nothing of [post] is interpreted, the counter is not advanced, the
    rewritten sequence stays, and the turtle is left as [pre] made it.  The
    rows drawn by [pre], one segment per ["F"] of it, are what [get_vectors]
    returns afterwards. *)
Theorem C2_underflow_raises_keeps_rows (self : LSystem.t) (iter : Z) (st : string)
    (pre post : list ascii) (tu : Turtle.t) :
  (1 <= iter)%Z ->
  LSystem.rewritten self = Ok st ->
  list_ascii_of_string st = pre ++ "]"%char :: post ->
  LSystem.interpret self pre (Turtle.clear_vectors (LSystem.turtle self)) = Done tu ->
  Turtle.states tu = [] ->
  let self' := LSystem.mk (LSystem.angle self) (LSystem.thickness self)
                 (LSystem.axiom self) st (LSystem.n self) (LSystem.rules self) tu in
  LSystem.step iter self = Failed IndexError self'
  /\ LSystem.get_vectors self' = Turtle.vectors tu
  /\ length (segments (LSystem.get_vectors self')) = count_symbol "F" pre.
Proof.
  intros Hiter Hst Hsplit Hpre Hstack self'. repeat split.
  - apply step_first_iteration_fails; [exact Hiter|].
    rewrite (step_body_rewritten _ _ Hst), Hsplit, interpret_app, Hpre.
    cbn [and_then LSystem.interpret LSystem.symbols Ascii.eqb Bool.eqb].
    unfold Turtle.pop. rewrite Hstack. reflexivity.
  - apply segments_length_even.
    change (length (Turtle.vectors tu) = (2 * count_symbol "F" pre)%nat).
    rewrite (interpret_vectors_length _ _ _ _ Hpre). reflexivity.
Qed.

Lemma C2_underflow_raises_keeps_rows_witness :
  LSystem.step 1 unbalanced
  = Failed IndexError
      (LSystem.mk 90 1 "F]" "F]" 0 (Some ∅)
         (obj (LSystem.interpret unbalanced (list_ascii_of_string "F")
                 (Turtle.clear_vectors Turtle.init)))).
Proof.
  refine (proj1 (C2_underflow_raises_keeps_rows unbalanced 1 "F]"
                   (list_ascii_of_string "F") [] _ _ _ eq_refl eq_refl eq_refl)).
  - lia.
  - vm_compute. reflexivity.
Defined.

(** ** The generation counter and the methods of an object *)

Lemma step_body_done_n (self self' : LSystem.t) :
  LSystem.step_body self = Done self' -> LSystem.n self' = (LSystem.n self + 1)%Z.
Proof.
  intros H. destruct (step_body_done_inv _ _ H) as (st & tu & _ & _ & ->). reflexivity.
Qed.

Lemma step_body_failed_n (self self' : LSystem.t) (e : exn) :
  LSystem.step_body self = Failed e self' -> LSystem.n self' = LSystem.n self.
Proof.
  unfold LSystem.step_body.
  destruct (LSystem.rewritten _) as [st|e1]; [|now intros [= <- <-]].
  cbv zeta. destruct (LSystem.interpret _ _ _) as [tu|e2 tu]; [discriminate|].
  now intros [= <- <-].
Qed.

Lemma step_loop_done_n (k : nat) (self self' : LSystem.t) :
  LSystem.step_loop k self = Done self' ->
  LSystem.n self' = (LSystem.n self + Z.of_nat k)%Z.
Proof.
  revert self. induction k as [|k IH]; intros self; simpl.
  - intros [= <-]. lia.
  - destruct (LSystem.step_body self) as [s1|e s1] eqn:Hb; simpl; [|discriminate].
    intros H. rewrite (IH _ H), (step_body_done_n _ _ Hb). lia.
Qed.

Lemma step_loop_n_le (k : nat) (self : LSystem.t) :
  (LSystem.n self <= LSystem.n (obj (LSystem.step_loop k self)))%Z.
Proof.
  revert self. induction k as [|k IH]; intros self; simpl.
  - lia.
  - destruct (LSystem.step_body self) as [s1|e s1] eqn:Hb; simpl.
    + specialize (IH s1). rewrite (step_body_done_n _ _ Hb) in IH. lia.
    + rewrite (step_body_failed_n _ _ _ Hb). lia.
Qed.

(** C7, as stated, fails: [reset] after one [step] takes the counter from 1
    back to 0. *)
Lemma C7_reset_decreases_n :
  LSystem.n (obj (call (Step 1) fibonacci)) = 1%Z
  /\ LSystem.n (obj (call Reset (obj (call (Step 1) fibonacci)))) = 0%Z
  /\ (LSystem.n (obj (call Reset (obj (call (Step 1) fibonacci))))
      < LSystem.n (obj (call (Step 1) fibonacci)))%Z.
Proof.
  assert (H : LSystem.n (obj (call (Step 1) fibonacci)) = 1%Z)
    by (vm_compute; reflexivity).
  rewrite H. cbn [call obj LSystem.reset LSystem.set_n LSystem.n]. lia.
Qed.

(** C7, amended: no method other than [reset] decreases the generation
    counter, whether the call returns or raises; [reset] sets it to 0. *)
Theorem C7_n_monotone_except_reset (m : method) (self : LSystem.t) :
  m <> Reset ->
  (LSystem.n self <= LSystem.n (obj (call m self)))%Z
  /\ LSystem.n (obj (call Reset self)) = 0%Z.
Proof.
  intros Hm. split; [|reflexivity].
  destruct m as [iter|target| | |]; simpl.
  - apply step_loop_n_le.
  - unfold LSystem.step_to. destruct (target <? LSystem.n self)%Z; simpl.
    + lia.
    + apply step_loop_n_le.
  - congruence.
  - lia.
  - destruct (LSystem.write_png self); simpl; lia.
Qed.

Lemma C7_n_monotone_except_reset_witness :
  (LSystem.n fibonacci <= LSystem.n (obj (call (StepTo 2) fibonacci)))%Z.
Proof.
  refine (proj1 (C7_n_monotone_except_reset (StepTo 2) fibonacci _)). discriminate.
Defined.

(** ** The default [rules=None] *)

(** C10, as stated, fails at [LSystem("")]: the comprehension has no symbol
    to look up, so nothing raises and [step(1)] returns with [n = 1]. *)
Lemma C10_empty_axiom_steps :
  LSystem.step 1 (LSystem.init "" None 90 1)
  = Done (LSystem.mk 90 1 "" "" 1 None Turtle.init).
Proof. reflexivity. Qed.

Lemma step_loop_empty_state (k : nat) (s : LSystem.t) :
  LSystem.state s = "" ->
  LSystem.step_loop (S k) s
  = Done (LSystem.mk (LSystem.angle s) (LSystem.thickness s) (LSystem.axiom s) ""
            (LSystem.n s + Z.of_nat (S k))%Z (LSystem.rules s)
            (Turtle.clear_vectors (LSystem.turtle s))).
Proof.
  revert s. induction k as [|k IH]; intros s Hempty.
  - cbn [LSystem.step_loop].
    rewrite (step_body_rewritten s "" (rewritten_empty_state s Hempty)).
    cbn. do 2 f_equal.
  - change (LSystem.step_loop (S (S k)) s)
      with (and_then (LSystem.step_body s) (LSystem.step_loop (S k))).
    rewrite (step_body_rewritten s "" (rewritten_empty_state s Hempty)).
    cbn [LSystem.interpret list_ascii_of_string and_then].
    rewrite IH by reflexivity. cbn. do 2 f_equal. lia.
Qed.

(** C10, amended: on an object with [rules = None] and a non-empty current
    sequence, [step] with a count of at least one raises [AttributeError]
    at the first lookup, leaving the sequence and the counter as they were
    and the array of rows cleared.  With an empty sequence there is no
    lookup: [step] returns for every count of at least one, whatever
    [rules] is, with the sequence still empty, the counter advanced by the
    count and the array of rows cleared.  When [rules] is a mapping,
    possibly empty, the lookup never raises: the pass is [substitute], a
    symbol without an entry is its own replacement, and under the empty
    mapping the sequence is unchanged. *)
Theorem C10_None_rules_raise (self : LSystem.t) (iter : Z) :
  LSystem.rules self = None ->
  LSystem.state self <> "" ->
  (1 <= iter)%Z ->
  LSystem.step iter self
  = Failed AttributeError
      (LSystem.set_turtle self (Turtle.clear_vectors (LSystem.turtle self)))
  /\ (forall s m, LSystem.rules s = Some m ->
        LSystem.rewritten s = Ok (substitute m (LSystem.state s))
        /\ (forall x, m !! x = None -> replacement m x = x))
  /\ (forall s, LSystem.rules s = Some ∅ -> LSystem.rewritten s = Ok (LSystem.state s))
  /\ (forall s k, LSystem.state s = "" -> (1 <= k)%Z ->
        LSystem.step k s
        = Done (LSystem.mk (LSystem.angle s) (LSystem.thickness s) (LSystem.axiom s) ""
                  (LSystem.n s + k)%Z (LSystem.rules s)
                  (Turtle.clear_vectors (LSystem.turtle s)))).
Proof.
  intros Hr Hs Hiter. split; [|split; [|split]].
  - apply step_first_iteration_fails; [exact Hiter|].
    unfold LSystem.step_body.
    change (LSystem.rewritten (LSystem.set_turtle self _)) with (LSystem.rewritten self).
    now rewrite (rewritten_None_nonempty _ Hr Hs).
  - intros s m Hm. split; [now apply rewritten_mapping|].
    intros x Hx. unfold replacement. now rewrite Hx.
  - intros s Hm. rewrite (rewritten_mapping _ ∅ Hm). now rewrite substitute_empty.
  - intros s k Hempty Hk. unfold LSystem.step.
    destruct (Z.to_nat k) as [|j] eqn:Hj; [lia|].
    rewrite (step_loop_empty_state j s Hempty). do 2 f_equal. lia.
Qed.

Lemma C10_None_rules_raise_witness :
  LSystem.step 3 (LSystem.init "F-F" None 90 1)
  = Failed AttributeError (LSystem.init "F-F" None 90 1).
Proof.
  refine (proj1 (C10_None_rules_raise (LSystem.init "F-F" None 90 1) 3 eq_refl _ _)).
  - discriminate.
  - lia.
Defined.

(** ** The rasterizer *)

Lemma comprehension_inv {A B : Type} (f : A -> result B) (xs : list A) (ys : list B) :
  comprehension f xs = Ok ys -> Forall2 (fun x y => f x = Ok y) xs ys.
Proof.
  revert ys. induction xs as [|x xs IH]; intros ys; simpl.
  - intros [= <-]. constructor.
  - destruct (f x) as [y|e] eqn:Hf; simpl; [|discriminate].
    destruct (comprehension f xs) as [ys'|e]; simpl; [|discriminate].
    intros [= <-]. constructor; [exact Hf | now apply IH].
Qed.

Lemma comprehension_ok {A B : Type} (f : A -> result B) (xs : list A) :
  Forall (fun x => exists y, f x = Ok y) xs -> exists ys, comprehension f xs = Ok ys.
Proof.
  induction 1 as [|x xs [y Hy] _ [ys Hys]]; simpl.
  - now exists [].
  - rewrite Hy, Hys. simpl. now exists (y :: ys).
Qed.

Lemma range_by_2_even (k : nat) :
  range_by_2 (2 * k) = map (fun i => 2 * i)%nat (seq 0 k).
Proof.
  unfold range_by_2. now rewrite Nat.add_1_r, Nat.div2_succ_double.
Qed.


Lemma range_by_2_length (k : nat) : length (range_by_2 (2 * k)) = k.
Proof. now rewrite range_by_2_even, length_map, length_seq. Qed.

Lemma fold_max_ge (rest : list (R * R)) (acc : R * R) :
  (fst acc <= fst (fold_left max_step rest acc))%R
  /\ (snd acc <= snd (fold_left max_step rest acc))%R.
Proof.
  revert acc. induction rest as [|p rest IH]; intros acc; simpl.
  - split; apply Rle_refl.
  - destruct (IH (max_step acc p)) as [H1 H2]. simpl in H1, H2. split.
    + eapply Rle_trans; [apply Rmax_l | exact H1].
    + eapply Rle_trans; [apply Rmax_l | exact H2].
Qed.

Lemma fold_min_le (rest : list (R * R)) (acc : R * R) :
  (fst (fold_left min_step rest acc) <= fst acc)%R
  /\ (snd (fold_left min_step rest acc) <= snd acc)%R.
Proof.
  revert acc. induction rest as [|p rest IH]; intros acc; simpl.
  - split; apply Rle_refl.
  - destruct (IH (min_step acc p)) as [H1 H2]. simpl in H1, H2. split.
    + eapply Rle_trans; [exact H1 | apply Rmin_l].
    + eapply Rle_trans; [exact H2 | apply Rmin_l].
Qed.

Lemma bounds_empty (self : LSystem.t) :
  LSystem.get_vectors self = [] -> LSystem._get_vector_bounds self = Raise ValueError.
Proof. intros Hv. unfold LSystem._get_vector_bounds. rewrite Hv. reflexivity. Qed.

Lemma bounds_nonempty (self : LSystem.t) (r : R * R) (rest : list (R * R)) :
  LSystem.get_vectors self = r :: rest ->
  LSystem._get_vector_bounds self
  = Ok (fst (fold_left min_step rest r), snd (fold_left min_step rest r),
        fst (fold_left max_step rest r), snd (fold_left max_step rest r)).
Proof. intros Hv. unfold LSystem._get_vector_bounds. rewrite Hv. reflexivity. Qed.


Lemma draw_at_inv (self : LSystem.t) (x_offset y_offset : R) (num_v i : nat) (l : draw_line) :
  LSystem.draw_at self x_offset y_offset num_v i = Ok l ->
  exists x1 y1 x2 y2,
    LSystem.get_vectors self !! i = Some (x1, y1)
    /\ LSystem.get_vectors self !! (i + 1)%nat = Some (x2, y2)
    /\ l = mk_line (INR i / INR num_v * 360, 50, 50, 100)%R
             (py_round x1 * 5 + x_offset, py_round y1 * 5 + y_offset)%R
             (py_round x2 * 5 + x_offset, py_round y2 * 5 + y_offset)%R
             (LSystem.thickness self).
Proof.
  unfold LSystem.draw_at, row.
  destruct (LSystem.get_vectors self !! i) as [[x1 y1]|]; simpl; [|discriminate].
  destruct (LSystem.get_vectors self !! (i + 1)%nat) as [[x2 y2]|]; simpl; [|discriminate].
  intros [= <-]. now exists x1, y1, x2, y2.
Qed.

Lemma draw_at_ok (self : LSystem.t) (x_offset y_offset : R) (num_v k N : nat) :
  length (LSystem.get_vectors self) = (2 * N)%nat -> (k < N)%nat ->
  exists l, LSystem.draw_at self x_offset y_offset num_v (2 * k) = Ok l.
Proof.
  intros Hlen Hk. unfold LSystem.draw_at, row.
  destruct (lookup_lt_is_Some_2 (LSystem.get_vectors self) (2 * k)) as [[x1 y1] ->]; [lia|].
  destruct (lookup_lt_is_Some_2 (LSystem.get_vectors self) (2 * k + 1)) as [[x2 y2] ->]; [lia|].
  simpl. eauto.
Qed.

(** What a returned surface is made of. *)
Lemma write_png_inv (self : LSystem.t) (sf : surface) :
  LSystem.write_png self = Ok sf ->
  exists x_min y_min x_max y_max,
    LSystem._get_vector_bounds self = Ok (x_min, y_min, x_max, y_max)
    /\ surface_size sf
       = ((x_max - x_min) * 5 + 10 * 2, (y_max - y_min) * 5 + 10 * 2)%R
    /\ Forall2
         (fun i l =>
            LSystem.draw_at self (- x_min * 5 + 10)%R (- y_min * 5 + 10)%R
              (length (LSystem.get_vectors self)) i = Ok l)
         (range_by_2 (length (LSystem.get_vectors self))) (surface_lines sf).
Proof.
  unfold LSystem.write_png.
  destruct (LSystem._get_vector_bounds self) as [[[[x_min y_min] x_max] y_max]|e];
    simpl; [|discriminate].
  destruct (comprehension _ _) as [lines|e] eqn:Hc; simpl; [|discriminate].
  intros [= <-]. exists x_min, y_min, x_max, y_max.
  repeat split. apply comprehension_inv in Hc. exact Hc.
Qed.

(** [write_png] returns whenever the array holds a positive, even number of
    rows, as every array left by a pass with at least one ["F"] does. *)
Lemma write_png_ok (self : LSystem.t) (N : nat) :
  length (LSystem.get_vectors self) = (2 * N)%nat -> (0 < N)%nat ->
  exists sf, LSystem.write_png self = Ok sf /\ length (surface_lines sf) = N.
Proof.
  intros Hlen HN.
  assert (Hb : exists b, LSystem._get_vector_bounds self = Ok b).
  { destruct (LSystem.get_vectors self) as [|r rest] eqn:Hv; [simpl in Hlen; lia|].
    rewrite (bounds_nonempty _ _ _ Hv). eauto. }
  destruct Hb as [[[[x_min y_min] x_max] y_max] Hb].
  unfold LSystem.write_png. rewrite Hb. cbn [result_bind].
  match goal with |- context [comprehension ?f ?xs] =>
    destruct (comprehension_ok f xs) as [lines Hlines] end.
  - rewrite Hlen, range_by_2_even. apply List.Forall_forall. intros i Hi.
    apply in_map_iff in Hi as (k & <- & Hk). apply in_seq in Hk.
    apply (draw_at_ok _ _ _ _ k N); [exact Hlen | lia].
  - rewrite Hlines. simpl. eexists. split; [reflexivity|]. simpl.
    apply comprehension_inv, Forall2_length in Hlines.
    rewrite <- Hlines, Hlen. apply range_by_2_length.
Qed.

(** C8: with no rows in the array, the bounding-box query raises
    ([ValueError], from the reduction over an empty array), and so does
    [write_png], which queries the bounds before it creates any surface.  In
    particular [write_png] raises after an iteration whose sequence has no
    ["F"]. *)
Theorem C8_empty_geometry_raises (self : LSystem.t) :
  LSystem.get_vectors self = [] ->
  LSystem._get_vector_bounds self = Raise ValueError
  /\ LSystem.write_png self = Raise ValueError
  /\ (forall self1 self2, LSystem.step_body self1 = Done self2 ->
        count_symbol "F" (list_ascii_of_string (LSystem.state self2)) = 0%nat ->
        LSystem.write_png self2 = Raise ValueError).
Proof.
  assert (Hw : forall s, LSystem.get_vectors s = [] ->
                         LSystem.write_png s = Raise ValueError).
  { intros s Hs. unfold LSystem.write_png. now rewrite (bounds_empty _ Hs). }
  intros Hv. split; [now apply bounds_empty | split; [now apply Hw|]].
  intros self1 self2 Hstep Hcount. apply Hw.
  apply length_zero_iff_nil. rewrite (step_body_segments _ _ Hstep), Hcount. reflexivity.
Qed.

Lemma C8_empty_geometry_raises_witness :
  LSystem.write_png (obj (LSystem.step 1 skip_only)) = Raise ValueError.
Proof.
  refine (proj1 (proj2 (C8_empty_geometry_raises (obj (LSystem.step 1 skip_only)) _))).
  reflexivity.
Defined.




Lemma py_round_half : py_round (1 / 2) = 1%R.
Proof.
  unfold py_round. destruct (Rle_dec 0 (1 / 2)) as [_|Hneg]; [|exfalso; lra].
  rewrite (Zfloor_eq 1); [reflexivity | lra].
Qed.

Lemma py_round_10 : py_round 10 = 10%R.
Proof.
  unfold py_round. destruct (Rle_dec 0 10) as [_|Hneg]; [|exfalso; lra].
  rewrite (Zfloor_eq 10); [reflexivity | lra].
Qed.

Lemma sixty_generation_1 :
  LSystem.step 1 sixty
  = Done (LSystem.mk 60 1 "-fF" "-fF" 1 (Some ∅)
            (Turtle.mk (1, sqrt 3)%R (PI / 3)%R []
               [(1 / 2, sqrt 3 / 2); (1, sqrt 3)]%R)).
Proof.
  unfold LSystem.step, sixty. change (Z.to_nat 1) with 1%nat.
  cbn [LSystem.step_loop]. step_empty_rules.
  replace (0 + radians 60)%R with (PI / 3)%R by (unfold radians; lra).
  rewrite cos_PI3, sin_PI3.
  repeat f_equal; lra.
Qed.

(** C4: evaluation at [LSystem("-fF", {}, 60)] after [step(1)].  The
    only segment runs from (1/2, sqrt 3 / 2), which is the minimum corner of
    the bounds, to (1, sqrt 3).  Its first endpoint is drawn at x = 12.5:
    not at the margin 10, not an integer, and not the 10 that rounding after
    scale and offset gives. *)
Lemma C4_rounds_before_scaling :
  exists sf l,
    LSystem.write_png (obj (LSystem.step 1 sixty)) = Ok sf
    /\ surface_lines sf = [l]
    /\ LSystem._get_vector_bounds (obj (LSystem.step 1 sixty))
       = Ok (1 / 2, sqrt 3 / 2, 1, sqrt 3)%R
    /\ LSystem.get_vectors (obj (LSystem.step 1 sixty)) !! 0%nat = Some (1 / 2, sqrt 3 / 2)%R
    /\ fst (line_start l) = (25 / 2)%R
    /\ pixel_rounded_after (1 / 2) 5 (- (1 / 2) * 5 + 10) = 10%R.
Proof.
  rewrite sixty_generation_1. cbn [obj].
  set (self := LSystem.mk _ _ _ _ _ _ _).
  assert (Hs3 : (0 <= sqrt 3)%R) by apply sqrt_pos.
  assert (Hb : LSystem._get_vector_bounds self = Ok (1 / 2, sqrt 3 / 2, 1, sqrt 3)%R).
  { rewrite (bounds_nonempty self (1 / 2, sqrt 3 / 2)%R [(1, sqrt 3)%R] eq_refl).
    cbn [fold_left min_step max_step fst snd].
    rewrite !Rmin_left, !Rmax_right by lra. reflexivity. }
  destruct (write_png_ok self 1 eq_refl (Nat.lt_0_1)) as (sf & Hsf & Hlen).
  destruct (write_png_inv _ _ Hsf) as (x_min & y_min & x_max & y_max & Hb' & _ & Hall).
  rewrite Hb in Hb'. injection Hb' as <- <- <- <-.
  destruct (surface_lines sf) as [|l [|l' rest]] eqn:Hl; try discriminate.
  exists sf, l.
  split; [exact Hsf|]. split; [exact Hl|]. split; [exact Hb|].
  split; [reflexivity|]. split.
  - apply Forall2_cons_inv_l in Hall as (l0 & ls & Hdraw & _ & Heq).
    injection Heq as <- <-.
    apply draw_at_inv in Hdraw as (x1 & y1 & x2 & y2 & H1 & _ & ->).
    injection H1 as <- <-. cbn [line_start fst]. rewrite py_round_half. lra.
  - unfold pixel_rounded_after.
    replace (1 / 2 * 5 + (- (1 / 2) * 5 + 10))%R with 10%R by lra. apply py_round_10.
Qed.

(** ** Determinism *)

(** [reset] clears the array of rows and leaves the rest of the turtle as
    it is: a pass made after it starts where the last pass ended.  This is
    why the statement below is about calls other than [reset]. *)
Example reset_keeps_turtle :
  LSystem.get_vectors (obj (calls [Step 1; Reset; Step 1] line_F)) = [(1, 0); (2, 0)]%R
  /\ LSystem.n (obj (calls [Step 1; Reset; Step 1] line_F)) = 1%Z
  /\ LSystem.get_vectors (obj (calls [Step 1] line_F)) = [(0, 0); (1, 0)]%R.
Proof.
  unfold calls, call, LSystem.step, line_F. change (Z.to_nat 1) with 1%nat.
  cbn [LSystem.step_loop].
  repeat step_empty_rules. read_object.
  rewrite cos_0, sin_0.
  repeat split; repeat f_equal; lra.
Qed.

Lemma advanced_step (start self self' : LSystem.t) (iter : Z) :
  advanced_from start self -> LSystem.step iter self = Done self' ->
  advanced_from start self'.
Proof.
  intros [Hn Hrun] Hstep. unfold LSystem.step in Hstep.
  pose proof (step_loop_done_n _ _ _ Hstep) as Hn'.
  split; [lia|].
  replace (Z.to_nat (LSystem.n self'))
    with (Z.to_nat (LSystem.n self) + Z.to_nat iter)%nat by lia.
  rewrite step_loop_add, Hrun. exact Hstep.
Qed.

Lemma advanced_call (start self self' : LSystem.t) (m : method) :
  m <> Reset -> advanced_from start self -> call m self = Done self' ->
  advanced_from start self'.
Proof.
  intros Hm Hadv. destruct m as [iter|target| | |]; simpl.
  - now apply advanced_step.
  - unfold LSystem.step_to. destruct (target <? LSystem.n self)%Z; [discriminate|].
    now apply advanced_step.
  - congruence.
  - now intros [= <-].
  - destruct (LSystem.write_png self); [now intros [= <-] | discriminate].
Qed.

Lemma advanced_calls (start : LSystem.t) (ms : list method) (self self' : LSystem.t) :
  Forall (fun m => m <> Reset) ms ->
  advanced_from start self -> calls ms self = Done self' ->
  advanced_from start self'.
Proof.
  intros Hms. revert self. induction Hms as [|m ms Hm _ IH]; intros self Hadv; simpl.
  - now intros [= <-].
  - destruct (call m self) as [s1|e s1] eqn:Hcall; simpl; [|discriminate].
    apply IH. exact (advanced_call _ _ _ _ Hm Hadv Hcall).
Qed.

(** X22: two objects built from the same configuration and advanced to the
    same generation, by whatever calls of [step], [step_to], [get_vectors]
    and [write_png] that all returned, are equal: they hold the same symbol
    sequence and the same array of rows, and [write_png] requests the same
    surface and draws the same lines on it for both.  The way the
    generation is reached, in one [step] or in several, does not matter as
    long as [reset] is not called. *)
Theorem X22_advance_paths_agree
    (axiom0 : string) (rules0 : option (gmap string string)) (angle0 : R) (thickness0 : Z)
    (ms1 ms2 : list method) (self1 self2 : LSystem.t) :
  Forall (fun m => m <> Reset) ms1 ->
  Forall (fun m => m <> Reset) ms2 ->
  calls ms1 (LSystem.init axiom0 rules0 angle0 thickness0) = Done self1 ->
  calls ms2 (LSystem.init axiom0 rules0 angle0 thickness0) = Done self2 ->
  LSystem.n self1 = LSystem.n self2 ->
  self1 = self2
  /\ LSystem.state self1 = LSystem.state self2
  /\ LSystem.get_vectors self1 = LSystem.get_vectors self2
  /\ LSystem.write_png self1 = LSystem.write_png self2.
Proof.
  intros Hms1 Hms2 Hrun1 Hrun2 Hn.
  set (start := LSystem.init axiom0 rules0 angle0 thickness0) in *.
  assert (Hstart : advanced_from start start) by (split; [simpl; lia | reflexivity]).
  destruct (advanced_calls _ _ _ _ Hms1 Hstart Hrun1) as [_ H1].
  destruct (advanced_calls _ _ _ _ Hms2 Hstart Hrun2) as [_ H2].
  rewrite Hn, H2 in H1. injection H1 as <-. repeat split.
Qed.

Lemma X22_advance_paths_agree_witness :
  obj (calls [Step 3] line_F) = obj (calls [StepTo 1; GetVectors; Step 2] line_F).
Proof.
  assert (H1 : calls [Step 3] (LSystem.init "F" (Some ∅) 90 1)
               = Done (obj (calls [Step 3] line_F)))
    by (vm_compute; reflexivity).
  assert (H2 : calls [StepTo 1; GetVectors; Step 2] (LSystem.init "F" (Some ∅) 90 1)
               = Done (obj (calls [StepTo 1; GetVectors; Step 2] line_F)))
    by (vm_compute; reflexivity).
  assert (Hn : LSystem.n (obj (calls [Step 3] line_F))
               = LSystem.n (obj (calls [StepTo 1; GetVectors; Step 2] line_F)))
    by (vm_compute; reflexivity).
  refine (proj1 (X22_advance_paths_agree "F" (Some ∅) 90 1
                   [Step 3] [StepTo 1; GetVectors; Step 2] _ _ _ _ H1 H2 Hn)).
  - repeat constructor; discriminate.
  - repeat constructor; discriminate.
Defined.

(** * Further properties of the code *)

(** ** The turtle and its save-stack *)

Lemma list_pop_snoc {A : Type} (l : list A) (x : A) : list_pop (l ++ [x]) = Ok (x, l).
Proof. unfold list_pop. rewrite rev_unit, rev_involutive. reflexivity. Qed.

Lemma list_pop_nil_iff {A : Type} (l : list A) :
  list_pop l = Raise IndexError <-> l = [].
Proof.
  split; [|now intros ->].
  destruct l as [|a l] using rev_ind; [reflexivity|].
  rewrite list_pop_snoc. discriminate.
Qed.

(** X1: [push] followed at once by [pop] gives back the turtle as it was:
    position, heading, save-stack and rows. *)
Theorem X1_push_pop_round_trip (tu : Turtle.t) :
  Turtle.pop (Turtle.push tu) = Ok tu.
Proof.
  unfold Turtle.pop, Turtle.push. cbn [Turtle.states Turtle.vectors].
  rewrite list_pop_snoc. destruct tu. reflexivity.
Qed.

(** X2: [pop] raises exactly when the save-stack is empty, and then it is
    [IndexError]; otherwise it returns the turtle at the position and heading
    saved last, with that entry removed and the rows untouched. *)
Theorem X2_pop_behaviour (tu : Turtle.t) :
  (Turtle.pop tu = Raise IndexError <-> Turtle.states tu = [])
  /\ (forall e, Turtle.pop tu = Raise e -> e = IndexError)
  /\ (forall rest p a, Turtle.states tu = rest ++ [(p, a)] ->
        Turtle.pop tu = Ok (Turtle.mk p a rest (Turtle.vectors tu))).
Proof.
  unfold Turtle.pop. split; [|split].
  - destruct (Turtle.states tu) as [|x l] using rev_ind.
    + split; reflexivity.
    + rewrite list_pop_snoc. destruct x as [p a]. split; [discriminate|].
      intros H. now apply app_eq_nil in H as [_ H].
  - intros e. destruct (Turtle.states tu) as [|x l] using rev_ind.
    + cbn. now intros [= <-].
    + rewrite list_pop_snoc. destruct x. discriminate.
  - intros rest p a ->. now rewrite list_pop_snoc.
Qed.

(** The lemmas on which exception a pass ends with are lemmas of the model,
    where headings are finite: there, every action of the table other than
    ["]"] returns. *)
Lemma symbol_returns (self : LSystem.t) (c : ascii) (d : string)
    (func : Turtle.t -> result Turtle.t) (tu : Turtle.t) :
  LSystem.symbols self c = Some (d, func) -> c <> "]"%char ->
  exists tu', func tu = Ok tu'.
Proof.
  unfold LSystem.symbols. intros H Hc.
  repeat match type of H with
         | context [Ascii.eqb c ?x] => destruct (Ascii.eqb_spec c x)
         end; try congruence; injection H as <- <-; eauto.
Qed.

(** Only the brackets touch the save-stack. *)
Lemma symbol_states (self : LSystem.t) (c : ascii) (d : string)
    (func : Turtle.t -> result Turtle.t) (tu tu' : Turtle.t) :
  LSystem.symbols self c = Some (d, func) -> func tu = Ok tu' ->
  c <> "["%char -> c <> "]"%char ->
  Turtle.states tu' = Turtle.states tu.
Proof.
  unfold LSystem.symbols. intros H Hf Ho Hc.
  repeat match type of H with
         | context [Ascii.eqb c ?x] => destruct (Ascii.eqb_spec c x)
         end; try congruence; injection H as <- <-; injection Hf as <-;
    try reflexivity; unfold Turtle.move; destruct (Turtle.pos tu); reflexivity.
Qed.

(** A symbol that is not a bracket: the loop goes on with a turtle that has
    the same save-stack. *)
Lemma interpret_plain (self : LSystem.t) (c : ascii) (cs : list ascii) (tu : Turtle.t) :
  c <> "["%char -> c <> "]"%char ->
  exists tu', LSystem.interpret self (c :: cs) tu = LSystem.interpret self cs tu'
              /\ Turtle.states tu' = Turtle.states tu.
Proof.
  intros Ho Hc. simpl.
  destruct (LSystem.symbols self c) as [[d func]|] eqn:Hsym; [|eauto].
  destruct (symbol_returns _ _ _ _ tu Hsym Hc) as [tu' Hf]. rewrite Hf.
  exists tu'. split; [reflexivity|]. exact (symbol_states _ _ _ _ _ _ Hsym Hf Ho Hc).
Qed.

Lemma interpret_depth (self : LSystem.t) (cs : list ascii) (tu : Turtle.t) :
  match depth_after (length (Turtle.states tu)) cs with
  | Some d =>
      exists tu', LSystem.interpret self cs tu = Done tu'
                  /\ length (Turtle.states tu') = d
  | None => exists tu', LSystem.interpret self cs tu = Failed IndexError tu'
  end.
Proof.
  revert tu. induction cs as [|c cs IH]; intros tu.
  - simpl. eauto.
  - cbn [depth_after].
    destruct (Ascii.eqb_spec c "[") as [->|Ho].
    { specialize (IH (Turtle.push tu)). cbn [Turtle.push Turtle.states] in IH.
      rewrite length_app, Nat.add_1_r in IH. exact IH. }
    destruct (Ascii.eqb_spec c "]") as [->|Hc].
    { cbn [LSystem.interpret LSystem.symbols Ascii.eqb Bool.eqb]. unfold Turtle.pop.
      destruct (Turtle.states tu) as [|[p a] l _] using rev_ind.
      - simpl. eauto.
      - rewrite list_pop_snoc, length_app, Nat.add_1_r.
        specialize (IH (Turtle.mk p a l (Turtle.vectors tu))). exact IH. }
    destruct (interpret_plain self c cs tu Ho Hc) as (tu' & -> & Hst).
    rewrite <- Hst. apply IH.
Qed.

Lemma interpret_above_base (self : LSystem.t) (cs : list ascii) :
  forall (d k : nat) (tu : Turtle.t) (base top : list ((R * R) * R)),
    Turtle.states tu = base ++ top -> length top = d ->
    depth_after d cs = Some k ->
    exists tu' top',
      LSystem.interpret self cs tu = Done tu'
      /\ Turtle.states tu' = base ++ top' /\ length top' = k.
Proof.
  induction cs as [|c cs IH]; intros d k tu base top Hst Hlen.
  - simpl. intros [= <-]. eauto.
  - cbn [depth_after].
    destruct (Ascii.eqb_spec c "[") as [->|Ho].
    { intros Hd. apply (IH (S d) k (Turtle.push tu) base (top ++ [(Turtle.pos tu, Turtle.angle tu)])).
      - cbn [Turtle.push Turtle.states]. rewrite Hst. now rewrite app_assoc.
      - rewrite length_app, Nat.add_1_r. now f_equal.
      - exact Hd. }
    destruct (Ascii.eqb_spec c "]") as [->|Hc].
    { destruct d as [|d']; [discriminate|]. intros Hd.
      destruct top as [|[p a] top0 _] using rev_ind; [discriminate|].
      rewrite length_app, Nat.add_1_r in Hlen. injection Hlen as Hlen.
      cbn [LSystem.interpret LSystem.symbols Ascii.eqb Bool.eqb]. unfold Turtle.pop.
      rewrite Hst, app_assoc, list_pop_snoc.
      apply (IH d' k _ base top0); [reflexivity | exact Hlen | exact Hd]. }
    intros Hd. destruct (interpret_plain self c cs tu Ho Hc) as (tu' & -> & Hst').
    apply (IH d k tu' base top); [now rewrite Hst' | exact Hlen | exact Hd].
Qed.

Lemma interpret_appends_rows (self : LSystem.t) (cs : list ascii) (tu : Turtle.t) :
  exists rows k,
    Turtle.vectors (obj (LSystem.interpret self cs tu)) = Turtle.vectors tu ++ rows
    /\ length rows = (2 * k)%nat.
Proof.
  revert tu. induction cs as [|c cs IH]; intros tu; simpl.
  - exists [], 0%nat. now rewrite app_nil_r.
  - destruct (LSystem.symbols self c) as [[d func]|] eqn:Hsym; [|apply IH].
    destruct (func tu) as [tu1|e] eqn:Hf.
    + destruct (IH tu1) as (rows & k & Hrows & Hk).
      rewrite Hrows, (symbol_vectors _ _ _ _ _ _ Hsym Hf), <- app_assoc.
      destruct (Ascii.eqb c "F").
      * exists ([Turtle.pos tu; Turtle.pos tu1] ++ rows), (S k).
        split; [reflexivity|]. rewrite length_app, Hk. simpl. lia.
      * exists rows, k. split; [reflexivity | exact Hk].
    + exists [], 0%nat. simpl. now rewrite app_nil_r.
Qed.

Lemma interpret_keeps_rows (self : LSystem.t) (cs : list ascii) (tu tu' : Turtle.t) :
  LSystem.interpret self cs tu = Done tu' ->
  exists rows, Turtle.vectors tu' = Turtle.vectors tu ++ rows.
Proof.
  intros H. destruct (interpret_appends_rows self cs tu) as (rows & k & Hr & _).
  rewrite H in Hr. eauto.
Qed.

(** X3: when a pass over [cs] returns, no ["]"] of [cs] found the
    save-stack empty, counting the entries the turtle started with, and the
    stack ends with the depth the brackets of [cs] leave.  So a sequence in
    which some ["]"] comes at depth 0 never completes a pass. *)
Theorem X3_returning_pass_has_no_underflow
    (self : LSystem.t) (cs : list ascii) (tu tu' : Turtle.t) :
  LSystem.interpret self cs tu = Done tu' ->
  depth_after (length (Turtle.states tu)) cs = Some (length (Turtle.states tu')).
Proof.
  intros Hrun. pose proof (interpret_depth self cs tu) as Hd.
  destruct (depth_after (length (Turtle.states tu)) cs) as [d|].
  - destruct Hd as (tu1 & Hrun1 & <-). congruence.
  - destruct Hd as (tu1 & Hrun1). congruence.
Qed.

Lemma X3_returning_pass_has_no_underflow_witness :
  depth_after 0 (list_ascii_of_string "F[+F[-F]f")
  = Some (length (Turtle.states
       (obj (LSystem.interpret quadratic_koch (list_ascii_of_string "F[+F[-F]f")
               Turtle.init)))).
Proof.
  exact (X3_returning_pass_has_no_underflow quadratic_koch
           (list_ascii_of_string "F[+F[-F]f") Turtle.init _ eq_refl).
Defined.

(** In the model a balanced block always runs to its end. *)
Lemma bracket_block_run (self : LSystem.t) (cs : list ascii) (tu : Turtle.t) :
  depth_after 0 cs = Some 0%nat ->
  exists tu' rows,
    LSystem.interpret self ("["%char :: cs ++ ["]"%char]) tu = Done tu'
    /\ Turtle.pos tu' = Turtle.pos tu
    /\ Turtle.angle tu' = Turtle.angle tu
    /\ Turtle.states tu' = Turtle.states tu
    /\ Turtle.vectors tu' = Turtle.vectors tu ++ rows.
Proof.
  intros Hbal.
  change ("["%char :: cs ++ ["]"%char]) with (["["%char] ++ cs ++ ["]"%char]).
  rewrite interpret_app.
  cbn [LSystem.interpret LSystem.symbols Ascii.eqb Bool.eqb and_then].
  rewrite interpret_app.
  destruct (interpret_above_base self cs 0 0 (Turtle.push tu)
              (Turtle.states tu ++ [(Turtle.pos tu, Turtle.angle tu)]) []
              (eq_sym (app_nil_r _)) eq_refl Hbal)
    as (tu1 & top & Hrun & Hst & Htop).
  destruct top; [|discriminate]. rewrite app_nil_r in Hst.
  rewrite Hrun.
  cbn [LSystem.interpret LSystem.symbols Ascii.eqb Bool.eqb and_then].
  unfold Turtle.pop. rewrite Hst, list_pop_snoc.
  destruct (interpret_keeps_rows _ _ _ _ Hrun) as [rows Hrows].
  eexists _, rows. split; [reflexivity|]. cbn. repeat split. exact Hrows.
Qed.

(** X4: when the pass over a bracketed block [[ cs ]] whose own brackets
    balance returns, the turtle is at the position and heading it had before
    the block, with the save-stack as it was; the rows drawn inside are
    appended. *)
Theorem X4_bracket_block_restores
    (self : LSystem.t) (cs : list ascii) (tu tu' : Turtle.t) :
  depth_after 0 cs = Some 0%nat ->
  LSystem.interpret self ("["%char :: cs ++ ["]"%char]) tu = Done tu' ->
  Turtle.pos tu' = Turtle.pos tu
  /\ Turtle.angle tu' = Turtle.angle tu
  /\ Turtle.states tu' = Turtle.states tu
  /\ exists rows, Turtle.vectors tu' = Turtle.vectors tu ++ rows.
Proof.
  intros Hbal Hrun.
  destruct (bracket_block_run self cs tu Hbal) as (tu1 & rows & Hrun1 & Hp & Ha & Hs & Hv).
  assert (tu1 = tu') by congruence. subst tu1. eauto.
Qed.

Lemma X4_bracket_block_restores_witness :
  let tu' := obj (LSystem.interpret quadratic_koch (list_ascii_of_string "[F[+F]-fF]")
                    Turtle.init) in
  Turtle.pos tu' = Turtle.pos Turtle.init
  /\ Turtle.angle tu' = Turtle.angle Turtle.init
  /\ Turtle.states tu' = Turtle.states Turtle.init
  /\ exists rows, Turtle.vectors tu' = Turtle.vectors Turtle.init ++ rows.
Proof.
  intros tu'.
  exact (X4_bracket_block_restores quadratic_koch (list_ascii_of_string "F[+F]-fF")
           Turtle.init tu' eq_refl eq_refl).
Defined.

(** X5: whatever a pass does, and whether it returns or raises, it only
    appends rows to the array, two at a time: the rows it started with are
    still there, in place. *)
Theorem X5_pass_appends_rows (self : LSystem.t) (cs : list ascii) (tu : Turtle.t) :
  exists rows k,
    Turtle.vectors (obj (LSystem.interpret self cs tu)) = Turtle.vectors tu ++ rows
    /\ length rows = (2 * k)%nat.
Proof. apply interpret_appends_rows. Qed.

(** ** The methods of an object *)

Lemma step_body_configuration (self : LSystem.t) :
  let self' := obj (LSystem.step_body self) in
  LSystem.angle self' = LSystem.angle self
  /\ LSystem.thickness self' = LSystem.thickness self
  /\ LSystem.axiom self' = LSystem.axiom self
  /\ LSystem.rules self' = LSystem.rules self.
Proof.
  unfold LSystem.step_body.
  destruct (LSystem.rewritten _) as [st|e]; [|now cbn].
  cbv zeta. destruct (LSystem.interpret _ _ _) as [tu|e tu]; now cbn.
Qed.

Lemma step_loop_configuration (k : nat) (self : LSystem.t) :
  let self' := obj (LSystem.step_loop k self) in
  LSystem.angle self' = LSystem.angle self
  /\ LSystem.thickness self' = LSystem.thickness self
  /\ LSystem.axiom self' = LSystem.axiom self
  /\ LSystem.rules self' = LSystem.rules self.
Proof.
  revert self. induction k as [|k IH]; intros self; [now cbn|].
  cbn [LSystem.step_loop].
  pose proof (step_body_configuration self) as Hb.
  destruct (LSystem.step_body self) as [s1|e s1]; cbn [and_then obj] in *.
  - destruct (IH s1) as (-> & -> & -> & ->). exact Hb.
  - exact Hb.
Qed.

Lemma call_configuration (m : method) (self : LSystem.t) :
  let self' := obj (call m self) in
  LSystem.angle self' = LSystem.angle self
  /\ LSystem.thickness self' = LSystem.thickness self
  /\ LSystem.axiom self' = LSystem.axiom self
  /\ LSystem.rules self' = LSystem.rules self.
Proof.
  destruct m as [iter|target| | |]; cbn [call].
  - apply step_loop_configuration.
  - unfold LSystem.step_to. destruct (target <? LSystem.n self)%Z; [now cbn|].
    apply step_loop_configuration.
  - now cbn.
  - now cbn.
  - destruct (LSystem.write_png self); now cbn.
Qed.

Lemma calls_configuration (ms : list method) (self : LSystem.t) :
  let self' := obj (calls ms self) in
  LSystem.angle self' = LSystem.angle self
  /\ LSystem.thickness self' = LSystem.thickness self
  /\ LSystem.axiom self' = LSystem.axiom self
  /\ LSystem.rules self' = LSystem.rules self.
Proof.
  revert self. induction ms as [|m ms IH]; intros self; [now cbn|].
  cbn [calls]. pose proof (call_configuration m self) as Hc.
  destruct (call m self) as [s1|e s1]; cbn [and_then obj] in *.
  - destruct (IH s1) as (-> & -> & -> & ->). exact Hc.
  - exact Hc.
Qed.

(** X6: no method, and no sequence of method calls, changes the
    configuration of an object: its angle, thickness, axiom and rule table
    are those it was built with, also after a call that raised. *)
Theorem X6_configuration_is_never_changed (ms : list method) (self : LSystem.t) :
  let self' := obj (calls ms self) in
  LSystem.angle self' = LSystem.angle self
  /\ LSystem.thickness self' = LSystem.thickness self
  /\ LSystem.axiom self' = LSystem.axiom self
  /\ LSystem.rules self' = LSystem.rules self.
Proof. apply calls_configuration. Qed.

Lemma step_loop_failed_n (k : nat) (self self' : LSystem.t) (e : exn) :
  LSystem.step_loop k self = Failed e self' ->
  (LSystem.n self <= LSystem.n self' < LSystem.n self + Z.of_nat k)%Z.
Proof.
  revert self. induction k as [|k IH]; intros self; cbn [LSystem.step_loop].
  - discriminate.
  - destruct (LSystem.step_body self) as [s1|e1 s1] eqn:Hb; cbn [and_then].
    + intros H. apply IH in H. rewrite (step_body_done_n _ _ Hb) in H. lia.
    + intros [= <- <-]. rewrite (step_body_failed_n _ _ _ Hb). lia.
Qed.

(** X7: [step(iter)] with [iter <= 0] returns at once and changes nothing;
    a [step(iter)] that returns has advanced the counter by exactly [iter];
    one that raises has advanced it by the iterations completed before, less
    than [iter]. *)
Theorem X7_step_counts_iterations (self : LSystem.t) (iter : Z) :
  ((iter <= 0)%Z -> LSystem.step iter self = Done self)
  /\ (forall self', LSystem.step iter self = Done self' ->
        LSystem.n self' = (LSystem.n self + Z.max 0 iter)%Z)
  /\ (forall e self', LSystem.step iter self = Failed e self' ->
        (LSystem.n self <= LSystem.n self' < LSystem.n self + iter)%Z).
Proof.
  unfold LSystem.step. split; [|split].
  - intros Hle. replace (Z.to_nat iter) with 0%nat by lia. reflexivity.
  - intros self' H. rewrite (step_loop_done_n _ _ _ H). lia.
  - intros e self' H. apply step_loop_failed_n in H. lia.
Qed.

Lemma step_body_failure (self self' : LSystem.t) (e : exn) :
  LSystem.step_body self = Failed e self' ->
  (e = AttributeError /\ LSystem.rules self = None /\ LSystem.state self <> "")
  \/ e = IndexError.
Proof.
  unfold LSystem.step_body.
  change (LSystem.rewritten (LSystem.set_turtle self _)) with (LSystem.rewritten self).
  destruct (LSystem.rules self) as [m|] eqn:Hr.
  - rewrite (rewritten_mapping _ m Hr). cbv zeta.
    cbn [LSystem.set_state LSystem.set_turtle LSystem.state LSystem.turtle].
    match goal with |- context [LSystem.interpret ?s ?cs ?tu] =>
      pose proof (interpret_depth s cs tu) as Hd;
      destruct (depth_after (length (Turtle.states tu)) cs) as [d|] eqn:Hdepth
    end.
    + destruct Hd as (tu' & -> & _). discriminate.
    + destruct Hd as (tu' & ->). intros [= <- <-]. now right.
  - destruct (string_dec (LSystem.state self) "") as [Hs|Hs].
    + rewrite (rewritten_empty_state _ Hs). cbn. discriminate.
    + rewrite (rewritten_None_nonempty _ Hr Hs). intros [= <- <-]. left. auto.
Qed.

Lemma step_loop_failure (k : nat) (self self' : LSystem.t) (e : exn) :
  LSystem.step_loop k self = Failed e self' ->
  (e = AttributeError /\ LSystem.rules self = None) \/ e = IndexError.
Proof.
  revert self. induction k as [|k IH]; intros self; cbn [LSystem.step_loop].
  - discriminate.
  - pose proof (step_body_configuration self) as (_ & _ & _ & Hrules).
    destruct (LSystem.step_body self) as [s1|e1 s1] eqn:Hb; cbn [and_then obj] in *.
    + intros H. apply IH in H. rewrite Hrules in H. exact H.
    + intros [= <- <-]. apply step_body_failure in Hb as [(-> & Hr & _)| ->]; auto.
Qed.

Lemma step_body_attribute_error (self self' : LSystem.t) :
  LSystem.step_body self = Failed AttributeError self' ->
  LSystem.rules self = None
  /\ LSystem.state self' <> "" /\ LSystem.get_vectors self' = [].
Proof.
  intros H. pose proof (step_body_failure _ _ _ H) as [(_ & Hr & Hs)|Habs];
    [|discriminate].
  split; [exact Hr|]. revert H. unfold LSystem.step_body.
  change (LSystem.rewritten (LSystem.set_turtle self _)) with (LSystem.rewritten self).
  rewrite (rewritten_None_nonempty _ Hr Hs). intros [= <-]. now split.
Qed.

Lemma step_loop_attribute_error (k : nat) (self self' : LSystem.t) :
  LSystem.step_loop k self = Failed AttributeError self' ->
  LSystem.rules self = None
  /\ LSystem.state self' <> "" /\ LSystem.get_vectors self' = [].
Proof.
  revert self. induction k as [|k IH]; intros self; cbn [LSystem.step_loop].
  - discriminate.
  - pose proof (step_body_configuration self) as (_ & _ & _ & Hrules).
    destruct (LSystem.step_body self) as [s1|e1 s1] eqn:Hb; cbn [and_then obj] in *.
    + intros H. apply IH in H. rewrite Hrules in H. exact H.
    + intros [= -> <-]. exact (step_body_attribute_error _ _ Hb).
Qed.

(** X8: [step] raises [AttributeError] only on an object built without a
    rule table, never with a dict for [rules]; it is raised at the first
    lookup of an iteration, so the sequence is then not empty and the array
    of rows has just been cleared. *)
Theorem X8_attribute_error_only_without_rules (self self' : LSystem.t) (iter : Z) :
  LSystem.step iter self = Failed AttributeError self' ->
  LSystem.rules self = None
  /\ LSystem.state self' <> "" /\ LSystem.get_vectors self' = [].
Proof. apply step_loop_attribute_error. Qed.

Lemma X8_attribute_error_only_without_rules_witness :
  LSystem.rules (LSystem.init "F-F" None 90 1) = None
  /\ LSystem.state (LSystem.init "F-F" None 90 1) <> ""
  /\ LSystem.get_vectors (LSystem.init "F-F" None 90 1) = [].
Proof.
  refine (X8_attribute_error_only_without_rules
            (LSystem.init "F-F" None 90 1) (LSystem.init "F-F" None 90 1) 3 _).
  vm_compute. reflexivity.
Defined.

(** X9: [step_to(target)] with a target below the counter raises
    [AssertionError] and leaves the object untouched; with the counter
    itself as target it changes nothing; and whenever it returns, the
    counter is the target. *)
Theorem X9_step_to_reaches_target (self : LSystem.t) (target : Z) :
  ((target < LSystem.n self)%Z -> LSystem.step_to target self = Failed AssertionError self)
  /\ LSystem.step_to (LSystem.n self) self = Done self
  /\ (forall self', LSystem.step_to target self = Done self' -> LSystem.n self' = target)
  /\ (forall e self', LSystem.step_to target self = Failed e self' ->
        e = AssertionError /\ self' = self /\ (target < LSystem.n self)%Z
        \/ e <> AssertionError /\ (LSystem.n self <= LSystem.n self' < target)%Z).
Proof.
  unfold LSystem.step_to. repeat split.
  - intros Hlt. apply Z.ltb_lt in Hlt. now rewrite Hlt.
  - rewrite Z.ltb_irrefl, Z.sub_diag. reflexivity.
  - intros self'. destruct (Z.ltb_spec target (LSystem.n self)) as [Hlt|Hge]; [discriminate|].
    unfold LSystem.step. intros H. rewrite (step_loop_done_n _ _ _ H). lia.
  - intros e self'. destruct (Z.ltb_spec target (LSystem.n self)) as [Hlt|Hge].
    + intros [= <- <-]. left. auto.
    + unfold LSystem.step. intros H. right. split.
      * apply step_loop_failure in H as [[-> _]| ->]; discriminate.
      * apply step_loop_failed_n in H. lia.
Qed.

(** ** Generations of the rewriting *)

Lemma step_loop_state_formula (k : nat) (self self' : LSystem.t) (m : gmap string string) :
  LSystem.rules self = Some m ->
  LSystem.step_loop k self = Done self' ->
  LSystem.state self' = Nat.iter k (substitute m) (LSystem.state self).
Proof.
  revert self. induction k as [|k IH]; intros self Hm.
  - cbn. now intros [= <-].
  - cbn [LSystem.step_loop]. rewrite Nat.iter_succ_r.
    pose proof (step_body_state self m Hm) as Hst.
    pose proof (step_body_configuration self) as (_ & _ & _ & Hrules).
    destruct (LSystem.step_body self) as [s1|e s1]; cbn [and_then obj] in *; [|discriminate].
    intros H. rewrite <- Hst. apply IH; [congruence | exact H].
Qed.

(** X10: when [step(iter)] returns on an object whose rules are the dict
    [m], the symbol sequence is the old one rewritten [iter] times by [m]:
    it depends on the rules and the sequence only, not on the turtle. *)
Theorem X10_generation_formula (self self' : LSystem.t) (m : gmap string string) (iter : Z) :
  LSystem.rules self = Some m ->
  LSystem.step iter self = Done self' ->
  LSystem.state self' = Nat.iter (Z.to_nat iter) (substitute m) (LSystem.state self).
Proof. intros Hm H. exact (step_loop_state_formula _ _ _ _ Hm H). Qed.

Lemma X10_generation_formula_witness :
  LSystem.state (obj (LSystem.step 3 fibonacci))
  = Nat.iter 3 (substitute (<["A" := "AB"]> (<["B" := "A"]> ∅))) "A".
Proof.
  refine (X10_generation_formula fibonacci (obj (LSystem.step 3 fibonacci)) _ 3 eq_refl _).
  vm_compute. reflexivity.
Defined.

(** X11: [reset] puts the symbol sequence back to the axiom, the counter to
    0 and empties the array of rows, and keeps the position, heading and
    save-stack of the turtle; a [step_to(target)] that returns after it gives
    generation [target] of the axiom. *)
Theorem X11_reset_restarts_rewriting (self : LSystem.t) :
  LSystem.state (LSystem.reset self) = LSystem.axiom self
  /\ LSystem.n (LSystem.reset self) = 0%Z
  /\ LSystem.get_vectors (LSystem.reset self) = []
  /\ Turtle.pos (LSystem.turtle (LSystem.reset self)) = Turtle.pos (LSystem.turtle self)
  /\ Turtle.angle (LSystem.turtle (LSystem.reset self)) = Turtle.angle (LSystem.turtle self)
  /\ Turtle.states (LSystem.turtle (LSystem.reset self)) = Turtle.states (LSystem.turtle self)
  /\ (forall m target self',
        LSystem.rules self = Some m ->
        LSystem.step_to target (LSystem.reset self) = Done self' ->
        LSystem.n self' = target
        /\ LSystem.state self'
           = Nat.iter (Z.to_nat target) (substitute m) (LSystem.axiom self)).
Proof.
  repeat split.
  - revert H0. unfold LSystem.step_to.
    destruct (Z.ltb_spec target (LSystem.n (LSystem.reset self))) as [Hlt|Hge];
      [discriminate|].
    unfold LSystem.step. intros Hrun. rewrite (step_loop_done_n _ _ _ Hrun). lia.
  - revert H0. unfold LSystem.step_to.
    destruct (Z.ltb_spec target (LSystem.n (LSystem.reset self))) as [Hlt|Hge];
      [discriminate|].
    unfold LSystem.step. intros Hrun.
    rewrite (step_loop_state_formula _ (LSystem.reset self) _ m H Hrun). cbn [LSystem.reset LSystem.set_n
      LSystem.set_state LSystem.set_turtle LSystem.n LSystem.state LSystem.axiom].
    now rewrite Z.sub_0_r.
Qed.

Lemma substitute_unmapped (m : gmap string string) (s : string) :
  (forall c, In c (list_ascii_of_string s) -> m !! String c EmptyString = None) ->
  substitute m s = s.
Proof.
  induction s as [|a s IH]; intros Hun; [reflexivity|].
  rewrite substitute_cons. unfold replacement.
  rewrite (Hun a) by (now left). rewrite IH; [reflexivity|].
  intros c Hc. apply Hun. now right.
Qed.

Lemma step_loop_state_fixed (k : nat) (self : LSystem.t) (m : gmap string string) :
  LSystem.rules self = Some m ->
  substitute m (LSystem.state self) = LSystem.state self ->
  LSystem.state (obj (LSystem.step_loop k self)) = LSystem.state self.
Proof.
  revert self. induction k as [|k IH]; intros self Hm Hfix; [reflexivity|].
  cbn [LSystem.step_loop].
  pose proof (step_body_state self m Hm) as Hst.
  pose proof (step_body_configuration self) as (_ & _ & _ & Hrules).
  destruct (LSystem.step_body self) as [s1|e s1]; cbn [and_then obj] in *.
  - rewrite IH; [congruence | congruence | congruence].
  - congruence.
Qed.

(** X12: the identity rule.  When no symbol of the sequence has an entry in
    the rule table, [step] leaves the sequence as it is, for any count, also
    when the interpretation raises. *)
Theorem X12_unmapped_sequence_is_fixed (self : LSystem.t) (m : gmap string string) (iter : Z) :
  LSystem.rules self = Some m ->
  (forall c, In c (list_ascii_of_string (LSystem.state self)) ->
             m !! String c EmptyString = None) ->
  LSystem.state (obj (LSystem.step iter self)) = LSystem.state self.
Proof.
  intros Hm Hun. apply (step_loop_state_fixed _ _ m Hm).
  now apply substitute_unmapped.
Qed.

Lemma X12_unmapped_sequence_is_fixed_witness :
  LSystem.state (obj (LSystem.step 5 (LSystem.init "X]" (Some (<["F" := "FF"]> ∅)) 90 1)))
  = "X]".
Proof.
  refine (X12_unmapped_sequence_is_fixed
            (LSystem.init "X]" (Some (<["F" := "FF"]> ∅)) 90 1) _ 5 eq_refl _).
  intros c [<-|[<-|[]]]; vm_compute; reflexivity.
Defined.

Lemma chars_length_1 (s x : string) : In x (chars s) -> String.length x = 1%nat.
Proof.
  unfold chars. intros H. apply in_map_iff in H as (c & <- & _). reflexivity.
Qed.

(** X13: only one-character keys of the rule table ever apply.  The lookup
    is made symbol by symbol, so an entry whose key is empty or has several
    characters changes nothing in any rewriting. *)
Theorem X13_only_one_symbol_keys_apply (m : gmap string string) (k v s : string) :
  String.length k <> 1%nat ->
  substitute (<[k := v]> m) s = substitute m s.
Proof.
  intros Hk. unfold substitute. f_equal. apply map_ext_in. intros x Hx.
  unfold replacement. rewrite lookup_insert_ne; [reflexivity|].
  intros ->. apply chars_length_1 in Hx. contradiction.
Qed.

Lemma X13_only_one_symbol_keys_apply_witness :
  substitute (<["FF" := "X"]> (<["F" := "F-F"]> ∅)) "FFF"
  = substitute (<["F" := "F-F"]> ∅) "FFF".
Proof.
  apply (X13_only_one_symbol_keys_apply (<["F" := "F-F"]> ∅) "FF" "X" "FFF").
  discriminate.
Defined.

Lemma list_ascii_append (s1 s2 : string) :
  list_ascii_of_string (String.append s1 s2)
  = list_ascii_of_string s1 ++ list_ascii_of_string s2.
Proof.
  induction s1 as [|c s1 IH]; [reflexivity|].
  change (String.append (String c s1) s2) with (String c (String.append s1 s2)).
  cbn [list_ascii_of_string]. now rewrite IH.
Qed.

(** A symbol of the rewritten sequence is a symbol of the old one that has
    no entry, or a symbol of some replacement in the table. *)
Lemma substitute_symbol_origin (m : gmap string string) (s : string) (c : ascii) :
  In c (list_ascii_of_string (substitute m s)) ->
  In c (list_ascii_of_string s)
  \/ exists k v, m !! k = Some v /\ In c (list_ascii_of_string v).
Proof.
  induction s as [|a s IH]; [intros []|].
  rewrite substitute_cons, list_ascii_append. intros H.
  apply in_app_or in H as [H|H].
  - unfold replacement in H.
    destruct (m !! String a EmptyString) as [v|] eqn:Hv; cbn [default] in H.
    + right. eauto.
    + left. destruct H as [<-|[]]. now left.
  - destruct (IH H) as [Hs|Hm]; [left; now right | now right].
Qed.

Lemma depth_after_no_close (cs : list ascii) (d : nat) :
  ~ In "]"%char cs -> exists k, depth_after d cs = Some k.
Proof.
  revert d. induction cs as [|c cs IH]; intros d Hno; [cbn; eauto|].
  cbn [depth_after].
  destruct (Ascii.eqb_spec c "["); [apply IH; intros H; apply Hno; now right|].
  destruct (Ascii.eqb_spec c "]") as [->|_]; [exfalso; apply Hno; now left|].
  apply IH. intros H. apply Hno. now right.
Qed.

Lemma step_loop_no_close (k : nat) (self : LSystem.t) (m : gmap string string) :
  LSystem.rules self = Some m ->
  ~ In "]"%char (list_ascii_of_string (LSystem.state self)) ->
  (forall key v, m !! key = Some v -> ~ In "]"%char (list_ascii_of_string v)) ->
  exists self', LSystem.step_loop k self = Done self'.
Proof.
  revert self. induction k as [|k IH]; intros self Hm Hstate Hrules; [cbn; eauto|].
  cbn [LSystem.step_loop].
  assert (Hnext : ~ In "]"%char (list_ascii_of_string (substitute m (LSystem.state self)))).
  { intros H. apply substitute_symbol_origin in H as [H|(key & v & Hkv & H)].
    - now apply Hstate.
    - now apply (Hrules key v). }
  rewrite (step_body_mapping self m Hm). cbv zeta.
  match goal with |- context [LSystem.interpret ?s ?cs ?tu] =>
    pose proof (interpret_depth s cs tu) as Hd;
    destruct (depth_after_no_close cs (length (Turtle.states tu)) Hnext) as [d Hdepth]
  end.
  rewrite Hdepth in Hd. destruct Hd as (tu' & -> & _). cbn [and_then].
  apply IH; assumption.
Qed.

(** X14: a system without ["]"] has no stack underflow.  When the rules
    are a dict and neither the current sequence nor any replacement in the
    table contains ["]"], [step] raises neither [IndexError] nor
    [AttributeError], for any count. *)
Theorem X14_no_closing_bracket_no_index_error
    (self : LSystem.t) (m : gmap string string) (iter : Z) :
  LSystem.rules self = Some m ->
  ~ In "]"%char (list_ascii_of_string (LSystem.state self)) ->
  (forall key v, m !! key = Some v -> ~ In "]"%char (list_ascii_of_string v)) ->
  raised (LSystem.step iter self) <> Some IndexError
  /\ raised (LSystem.step iter self) <> Some AttributeError.
Proof.
  intros Hm Hs Hr.
  destruct (step_loop_no_close (Z.to_nat iter) self m Hm Hs Hr) as [self' Hrun].
  unfold LSystem.step. rewrite Hrun. split; discriminate.
Qed.

Lemma X14_no_closing_bracket_no_index_error_witness :
  raised (LSystem.step 4 quadratic_koch) <> Some IndexError
  /\ raised (LSystem.step 4 quadratic_koch) <> Some AttributeError.
Proof.
  refine (X14_no_closing_bracket_no_index_error quadratic_koch _ 4 eq_refl _ _).
  - vm_compute. intuition discriminate.
  - intros key v Hkv. apply lookup_insert_Some in Hkv as [[_ <-]|[_ Hkv]].
    + vm_compute. intuition discriminate.
    + rewrite lookup_empty in Hkv. discriminate.
Defined.

(** ** Objects reached from a fresh one *)

Lemma step_body_rows_even (self : LSystem.t) :
  exists k, length (LSystem.get_vectors (obj (LSystem.step_body self))) = (2 * k)%nat.
Proof.
  unfold LSystem.step_body.
  destruct (LSystem.rewritten _) as [st|e]; [|now exists 0%nat].
  cbv zeta.
  match goal with |- context [LSystem.interpret ?s ?cs ?tu] =>
    destruct (interpret_appends_rows s cs tu) as (rows & k & Hrows & Hk);
    destruct (LSystem.interpret s cs tu) as [tu'|e tu']
  end; exists k; cbn in Hrows |- *; unfold LSystem.get_vectors, Turtle.get_vectors;
    cbn; rewrite Hrows; exact Hk.
Qed.

Lemma step_loop_rows_even (k : nat) (self : LSystem.t) :
  (exists j, length (LSystem.get_vectors self) = (2 * j)%nat) ->
  exists j, length (LSystem.get_vectors (obj (LSystem.step_loop k self))) = (2 * j)%nat.
Proof.
  revert self. induction k as [|k IH]; intros self Hself; [exact Hself|].
  cbn [LSystem.step_loop]. pose proof (step_body_rows_even self) as Hb.
  destruct (LSystem.step_body self) as [s1|e s1]; cbn [and_then obj] in *.
  - now apply IH.
  - exact Hb.
Qed.

Lemma call_rows_even (m : method) (self : LSystem.t) :
  (exists j, length (LSystem.get_vectors self) = (2 * j)%nat) ->
  exists j, length (LSystem.get_vectors (obj (call m self))) = (2 * j)%nat.
Proof.
  intros Hself. destruct m as [iter|target| | |]; cbn [call].
  - now apply step_loop_rows_even.
  - unfold LSystem.step_to. destruct (target <? LSystem.n self)%Z; [exact Hself|].
    now apply step_loop_rows_even.
  - now exists 0%nat.
  - exact Hself.
  - destruct (LSystem.write_png self); exact Hself.
Qed.



(** ** Bounds and pixels *)

Lemma fold_max_upper (rest : list (R * R)) (acc : R * R) (i : nat) (p : R * R) :
  rest !! i = Some p ->
  (fst p <= fst (fold_left max_step rest acc))%R
  /\ (snd p <= snd (fold_left max_step rest acc))%R.
Proof.
  revert acc i. induction rest as [|q rest IH]; intros acc i; [discriminate|].
  destruct i as [|i]; cbn [fold_left].
  - intros [= ->]. destruct (fold_max_ge rest (max_step acc p)) as [H1 H2].
    cbn [max_step fst snd] in H1, H2. split.
    + eapply Rle_trans; [apply Rmax_r | exact H1].
    + eapply Rle_trans; [apply Rmax_r | exact H2].
  - intros Hp. exact (IH _ i Hp).
Qed.

Lemma fold_min_lower (rest : list (R * R)) (acc : R * R) (i : nat) (p : R * R) :
  rest !! i = Some p ->
  (fst (fold_left min_step rest acc) <= fst p)%R
  /\ (snd (fold_left min_step rest acc) <= snd p)%R.
Proof.
  revert acc i. induction rest as [|q rest IH]; intros acc i; [discriminate|].
  destruct i as [|i]; cbn [fold_left].
  - intros [= ->]. destruct (fold_min_le rest (min_step acc p)) as [H1 H2].
    cbn [min_step fst snd] in H1, H2. split.
    + eapply Rle_trans; [exact H1 | apply Rmin_r].
    + eapply Rle_trans; [exact H2 | apply Rmin_r].
  - intros Hp. exact (IH _ i Hp).
Qed.







Lemma bounds_enclose (self : LSystem.t) (x_min y_min x_max y_max : R) :
  LSystem._get_vector_bounds self = Ok (x_min, y_min, x_max, y_max) ->
  forall i x y, LSystem.get_vectors self !! i = Some (x, y) ->
    (x_min <= x <= x_max)%R /\ (y_min <= y <= y_max)%R.
Proof.
  destruct (LSystem.get_vectors self) as [|r rest] eqn:Hv.
  - rewrite (bounds_empty _ Hv). discriminate.
  - rewrite (bounds_nonempty _ _ _ Hv). intros [= <- <- <- <-] i x y Hi.
    destruct i as [|i].
    + injection Hi as ->.
      destruct (fold_max_ge rest (x, y)), (fold_min_le rest (x, y)). cbn in *. lra.
    + cbn in Hi.
      destruct (fold_max_upper rest r i _ Hi), (fold_min_lower rest r i _ Hi).
      cbn in *. lra.
Qed.



Lemma py_round_near (x : R) : (x - 1 / 2 <= py_round x <= x + 1 / 2)%R.
Proof.
  unfold py_round. destruct (Rle_dec 0 x) as [Hx|Hx].
  - pose proof (Zfloor_bound (x + / 2)). lra.
  - pose proof (Zfloor_bound (- x + / 2)). lra.
Qed.

(** X17: every line is drawn inside the surface.  Both endpoints of every
    line that [write_png] draws are at least 7.5 from each edge of the
    surface it requested. *)
Theorem X17_lines_stay_inside_surface (self : LSystem.t) (sf : surface)
    (i : nat) (l : draw_line) :
  LSystem.write_png self = Ok sf ->
  surface_lines sf !! i = Some l ->
  let inside (p : R * R) :=
    (15 / 2 <= fst p <= fst (surface_size sf) - 15 / 2)%R
    /\ (15 / 2 <= snd p <= snd (surface_size sf) - 15 / 2)%R in
  inside (line_start l) /\ inside (line_end l).
Proof.
  intros Hsf Hl inside.
  destruct (write_png_inv _ _ Hsf) as (x_min & y_min & x_max & y_max & Hb & Hsize & Hall).
  destruct (Forall2_lookup_r _ _ _ _ _ Hall Hl) as (j & _ & Hdraw).
  apply draw_at_inv in Hdraw as (x1 & y1 & x2 & y2 & H1 & H2 & ->).
  destruct (bounds_enclose _ _ _ _ _ Hb _ _ _ H1) as [Hx1 Hy1].
  destruct (bounds_enclose _ _ _ _ _ Hb _ _ _ H2) as [Hx2 Hy2].
  pose proof (py_round_near x1). pose proof (py_round_near y1).
  pose proof (py_round_near x2). pose proof (py_round_near y2).
  unfold inside. rewrite Hsize. cbn [line_start line_end fst snd].
  repeat split; lra.
Qed.

Lemma X17_lines_stay_inside_surface_witness :
  let sf := value (LSystem.write_png (obj (LSystem.step 1 line_F))) (mk_surface (0, 0)%R []) in
  let l := default (mk_line (0, 0, 0, 0)%R (0, 0)%R (0, 0)%R 0) (surface_lines sf !! 0%nat) in
  (15 / 2 <= fst (line_start l) <= fst (surface_size sf) - 15 / 2)%R.
Proof.
  intros sf l.
  destruct (X17_lines_stay_inside_surface (obj (LSystem.step 1 line_F)) sf 0 l
              eq_refl eq_refl) as [[H _] _].
  exact H.
Defined.

(** X18: every line has the thickness of the object as its width, and a hue
    from 0 up to but not including 360. *)
Theorem X18_line_width_and_hue_range (self : LSystem.t) (sf : surface)
    (i : nat) (l : draw_line) :
  LSystem.write_png self = Ok sf ->
  surface_lines sf !! i = Some l ->
  line_width l = LSystem.thickness self
  /\ exists hue, line_hsla l = (hue, 50, 50, 100)%R /\ (0 <= hue < 360)%R.
Proof.
  intros Hsf Hl.
  destruct (write_png_inv _ _ Hsf) as (x_min & y_min & x_max & y_max & _ & _ & Hall).
  destruct (Forall2_lookup_r _ _ _ _ _ Hall Hl) as (j & _ & Hdraw).
  apply draw_at_inv in Hdraw as (x1 & y1 & x2 & y2 & H1 & _ & ->).
  split; [reflexivity|]. eexists. split; [reflexivity|].
  apply lookup_lt_Some in H1.
  assert (Hj : (0 <= INR j)%R) by apply pos_INR.
  assert (Hlt : (INR j < INR (length (LSystem.get_vectors self)))%R) by now apply lt_INR.
  set (num := INR (length (LSystem.get_vectors self))) in *.
  assert (Hnum : (0 < num)%R) by lra.
  split.
  - apply Rmult_le_pos; [|lra]. unfold Rdiv.
    apply Rmult_le_pos; [exact Hj | left; now apply Rinv_0_lt_compat].
  - assert (INR j / num < 1)%R.
    { apply (Rmult_lt_reg_r num); [exact Hnum|]. unfold Rdiv.
      rewrite Rmult_assoc, Rinv_l by lra. lra. }
    lra.
Qed.

Lemma X18_line_width_and_hue_range_witness :
  let sf := value (LSystem.write_png (obj (LSystem.step 1 line_F))) (mk_surface (0, 0)%R []) in
  let l := default (mk_line (0, 0, 0, 0)%R (0, 0)%R (0, 0)%R 0) (surface_lines sf !! 0%nat) in
  line_width l = 1%Z.
Proof.
  intros sf l.
  exact (proj1 (X18_line_width_and_hue_range (obj (LSystem.step 1 line_F)) sf 0 l
                  eq_refl eq_refl)).
Defined.

(** ** The command line *)

Lemma list_remove_In (x : Z) (l l' : list Z) :
  list_remove x l = Ok l' -> forall y, In y l' -> In y l.
Proof.
  revert l'. induction l as [|a l IH]; intros l'; cbn [list_remove]; [discriminate|].
  destruct (a =? x)%Z.
  - intros [= <-] y Hy. now right.
  - destruct (list_remove x l) as [r|e]; cbn [result_bind]; [|discriminate].
    intros [= <-] y [<-|Hy]; [now left | right; now apply (IH r)].
Qed.

Lemma list_remove_absent (x : Z) (l : list Z) :
  ~ In x l -> list_remove x l = Raise ValueError.
Proof.
  induction l as [|a l IH]; intros Hx; cbn [list_remove]; [reflexivity|].
  destruct (Z.eqb_spec a x) as [->|_]; [exfalso; apply Hx; now left|].
  rewrite IH; [reflexivity|]. intros H. apply Hx. now right.
Qed.

Lemma collect_nums_Forall (Q : Z -> Prop) (num_args nums out : list Z) :
  (forall n, In n num_args -> (0 < n)%Z -> Q n) ->
  List.Forall Q nums ->
  collect_nums num_args nums = Parsed out ->
  List.Forall Q out.
Proof.
  revert nums. induction num_args as [|n rest IH]; intros nums HQ Hnums; cbn [collect_nums].
  - now intros [= <-].
  - destruct (Z.gtb_spec n 0) as [Hpos|Hnpos].
    + apply IH.
      * intros k Hk. apply HQ. now right.
      * apply List.Forall_app. split; [exact Hnums|].
        constructor; [apply HQ; [now left | lia] | constructor].
    + destruct (Z.ltb_spec n 0) as [Hneg|_]; [|discriminate].
      destruct (list_remove (- n) nums) as [nums'|e] eqn:Hrm; [|discriminate].
      apply IH.
      * intros k Hk. apply HQ. now right.
      * apply List.Forall_forall. intros y Hy.
        rewrite List.Forall_forall in Hnums. apply Hnums.
        exact (list_remove_In _ _ _ Hrm y Hy).
Qed.

#[local] Instance Z_le_transitive : Transitive Z.le.
Proof. intros x y z. apply Z.le_trans. Qed.

#[local] Instance Z_le_total : Total Z.le.
Proof. intros x y. lia. Qed.

Lemma parse_nums_inv (num_args nums : list Z) :
  parse_nums num_args = Parsed nums ->
  StronglySorted Z.le nums
  /\ List.Forall (fun n => (0 < n)%Z /\ In n num_args) nums
  /\ nums <> [].
Proof.
  unfold parse_nums.
  destruct (collect_nums num_args []) as [collected|e|] eqn:Hc; try discriminate.
  destruct collected as [|c0 collected]; [discriminate|].
  cbn [length Nat.ltb Nat.leb]. intros [= <-].
  split; [apply StronglySorted_merge_sort; apply _|]. split.
  - eapply Permutation_Forall; [symmetry; apply merge_sort_Permutation|].
    apply (collect_nums_Forall _ num_args [] _); [auto | constructor | exact Hc].
  - intros Hnil.
    pose proof (merge_sort_Permutation Z.le (c0 :: collected)) as Hp.
    rewrite Hnil in Hp. now apply Permutation_nil_cons in Hp.
Qed.

(** X19: when the target list of [_parse_args] comes out, it is sorted in
    ascending order, not empty, and holds only positive numbers that were
    given as arguments.  A negative argument [-n] for which [n] is not in
    the list collected so far makes [nums.remove] raise [ValueError]. *)
Theorem X19_parsed_targets (num_args nums : list Z) :
  parse_nums num_args = Parsed nums ->
  StronglySorted Z.le nums
  /\ List.Forall (fun n => (0 < n)%Z /\ In n num_args) nums
  /\ nums <> []
  /\ (forall n rest collected, (0 < n)%Z -> ~ In n collected ->
        collect_nums (- n :: rest) collected = ParseRaise ValueError).
Proof.
  intros H. destruct (parse_nums_inv _ _ H) as (Hs & Hf & Hn).
  repeat split; try assumption.
  intros n rest collected Hpos Habs. cbn [collect_nums].
  destruct (Z.gtb_spec (- n) 0); [lia|].
  destruct (Z.ltb_spec (- n) 0); [|lia].
  rewrite Z.opp_involutive, list_remove_absent by exact Habs. reflexivity.
Qed.

Lemma X19_parsed_targets_witness :
  StronglySorted Z.le [2; 3; 5]%Z.
Proof.
  refine (proj1 (X19_parsed_targets [5; 1; 3; -1; 2]%Z [2; 3; 5]%Z _)).
  vm_compute. reflexivity.
Defined.

Lemma write_png_raises_on_whole_segments (self : LSystem.t) (e : exn) :
  (exists j, length (LSystem.get_vectors self) = (2 * j)%nat) ->
  LSystem.write_png self = Raise e ->
  e = ValueError /\ LSystem.get_vectors self = [].
Proof.
  intros [j Hj] Hraise. destruct j as [|j].
  - apply length_zero_iff_nil in Hj.
    unfold LSystem.write_png in Hraise. rewrite (bounds_empty _ Hj) in Hraise.
    injection Hraise as <-. now split.
  - destruct (write_png_ok self (S j) Hj) as (sf & Hsf & _); [lia|]. congruence.
Qed.

Lemma main_loop_outcomes (nums : list Z) :
  forall (ls : LSystem.t) (m : gmap string string),
    LSystem.rules ls = Some m ->
    (exists j, length (LSystem.get_vectors ls) = (2 * j)%nat) ->
    StronglySorted Z.le nums ->
    List.Forall (Z.le (LSystem.n ls)) nums ->
    (forall e ls', main_loop nums ls = Failed e ls' ->
       e = IndexError \/ (e = ValueError /\ LSystem.get_vectors ls' = []))
    /\ (forall ls', main_loop nums ls = Done ls' ->
          LSystem.n ls' = List.last nums (LSystem.n ls)).
Proof.
  unfold main_loop. induction nums as [|t rest IH]; intros ls m Hm Heven Hsorted Hge.
  - cbn. split; [discriminate | now intros ls' [= <-]].
  - apply StronglySorted_inv in Hsorted as [Hsorted Hrest].
    apply List.Forall_cons_iff in Hge as [Ht Hge].
    cbn [flat_map app calls].
    pose proof (call_configuration (StepTo t) ls) as (_ & _ & _ & Hrules).
    pose proof (call_rows_even (StepTo t) ls Heven) as Heven1.
    cbn [call] in *. rewrite Hm in Hrules.
    destruct (LSystem.step_to t ls) as [s1|e1 s1] eqn:Hstep; cbn [and_then obj] in *.
    + assert (Hn1 : LSystem.n s1 = t).
      { revert Hstep. unfold LSystem.step_to.
        destruct (Z.ltb_spec t (LSystem.n ls)); [discriminate|].
        unfold LSystem.step. intros H1. rewrite (step_loop_done_n _ _ _ H1). lia. }
      destruct (LSystem.write_png s1) as [sf|e2] eqn:Hpng; cbn [and_then].
      * destruct (IH s1 m Hrules Heven1 Hsorted) as [Hfail Hdone].
        { now rewrite Hn1. }
        split; [exact Hfail|].
        intros ls' Hls'. rewrite (Hdone ls' Hls'), Hn1.
        destruct rest as [|t' rest']; [reflexivity|]. cbn [List.last].
        clear. revert t'. induction rest' as [|a r IHr]; intros t'; [reflexivity|].
        cbn [List.last]. apply IHr.
      * split; [|discriminate]. intros e ls' [= <- <-]. right.
        exact (write_png_raises_on_whole_segments _ _ Heven1 Hpng).
    + split; [|discriminate]. intros e ls' [= <- <-]. left.
      revert Hstep. unfold LSystem.step_to.
      destruct (Z.ltb_spec t (LSystem.n ls)); [lia|].
      unfold LSystem.step. intros H1.
      apply step_loop_failure in H1 as [[_ Hnone]| ->]; [congruence | reflexivity].
Qed.

(** X20: the main loop on the targets that [_parse_args] returns, run on a
    fresh object whose rules are a dict (as [load_file] builds it).  The
    assertion of [step_to] never fails, because the targets are sorted and
    positive, and no [AttributeError] arises.  When the loop runs to its end
    the object is at the last target, which is the largest. *)
Theorem X20_main_loop_on_parsed_targets
    (num_args nums : list Z) (axiom0 : string) (m : gmap string string)
    (angle0 : R) (thickness0 : Z) :
  parse_nums num_args = Parsed nums ->
  let ls := LSystem.init axiom0 (Some m) angle0 thickness0 in
  (forall e ls', main_loop nums ls = Failed e ls' ->
     e <> AssertionError /\ e <> AttributeError)
  /\ (forall ls', main_loop nums ls = Done ls' ->
        LSystem.n ls' = List.last nums 0%Z
        /\ List.Forall (fun t => (t <= LSystem.n ls')%Z) nums).
Proof.
  intros Hparse ls. destruct (parse_nums_inv _ _ Hparse) as (Hsorted & Hpos & _).
  assert (Hge : List.Forall (Z.le (LSystem.n ls)) nums).
  { eapply List.Forall_impl; [|exact Hpos]. cbn. intros t [Ht _]. lia. }
  destruct (main_loop_outcomes nums ls m eq_refl (ex_intro _ 0%nat eq_refl) Hsorted Hge)
    as [Hfail Hdone].
  split.
  { intros e ls' Hrun. destruct (Hfail e ls' Hrun) as [->|[-> _]]; split; discriminate. }
  intros ls' Hls'. specialize (Hdone ls' Hls'). cbn in Hdone.
  split; [exact Hdone|]. rewrite Hdone. clear -Hsorted.
  induction Hsorted as [|t rest Hs IH Hall]; [constructor|].
  constructor.
  - destruct rest as [|t' rest']; [cbn; lia|].
    apply List.Forall_cons_iff in Hall as [Ht' _].
    apply List.Forall_cons_iff in IH as [IH' _].
    change (List.last (t :: t' :: rest') 0%Z) with (List.last (t' :: rest') 0%Z). lia.
  - destruct rest as [|t' rest']; [constructor|]. exact IH.
Qed.

Lemma X20_main_loop_on_parsed_targets_witness :
  ValueError <> AssertionError /\ ValueError <> AttributeError.
Proof.
  assert (Hparse : parse_nums [2; 1]%Z = Parsed [1; 2]%Z) by (vm_compute; reflexivity).
  assert (Hrun : main_loop [1; 2]%Z (LSystem.init "f+f" (Some ∅) 90 1)
                 = Failed ValueError (obj (main_loop [1; 2]%Z skip_only)))
    by (vm_compute; reflexivity).
  exact (proj1 (X20_main_loop_on_parsed_targets [2; 1]%Z [1; 2]%Z "f+f" ∅ 90 1 Hparse)
           ValueError _ Hrun).
Defined.

(** ** Loading a description *)

Lemma last_selected_snoc {A : Type} (sel : parsed_line -> option A)
    (p : list parsed_line) (line : parsed_line) :
  last_selected sel (p ++ [line])
  = match sel line with Some a => Some a | None => last_selected sel p end.
Proof.
  induction p as [|x p IH]; cbn [app last_selected].
  - now destruct (sel line).
  - rewrite IH. now destruct (sel line).
Qed.

Lemma load_lines_snoc (p : list parsed_line) (line : parsed_line) :
  load_lines (p ++ [line]) = load_line (load_lines p) line.
Proof. unfold load_lines. now rewrite fold_left_app. Qed.

Lemma load_lines_last (p : list parsed_line) :
  loaded_start (load_lines p) = last_selected start_of p
  /\ loaded_angle (load_lines p) = default 90%R (last_selected angle_of p)
  /\ loaded_thickness (load_lines p) = default 1%Z (last_selected thickness_of p)
  /\ (forall key, loaded_rules (load_lines p) !! key = last_selected (rule_of key) p).
Proof.
  induction p as [|line p (IHs & IHa & IHt & IHr)] using rev_ind.
  - cbn. repeat split.
  - rewrite load_lines_snoc, !last_selected_snoc.
    destruct line as [val|val|val|rule_from rule_to|key0];
      cbn [load_line loaded_start loaded_angle loaded_thickness loaded_rules
           start_of angle_of thickness_of rule_of default];
      repeat split; try assumption; intros key; rewrite last_selected_snoc;
      cbn [rule_of]; try apply IHr.
    destruct (String.eqb_spec rule_from key) as [->|Hne].
    + apply lookup_insert_eq.
    + rewrite lookup_insert_ne by exact Hne. apply IHr.
Qed.

(** X21: what the loop of [load_file] makes of the parsed lines, for every
    parse result.  The start, the angle and the thickness passed to the
    constructor are those of the last line that gives one, with [None], 90
    and 1 when no line does; the rule for a symbol is the one of the last
    rule line for it; lines of any other key are ignored.  [rules] is a
    dict, so [step] on an object loaded with a start line never raises
    [AttributeError]. *)
Theorem X21_load_lines_last_line_wins (p : list parsed_line) :
  loaded_start (load_lines p) = last_selected start_of p
  /\ loaded_angle (load_lines p) = default 90%R (last_selected angle_of p)
  /\ loaded_thickness (load_lines p) = default 1%Z (last_selected thickness_of p)
  /\ (forall key, loaded_rules (load_lines p) !! key = last_selected (rule_of key) p)
  /\ (forall start iter e ls',
        loaded_start (load_lines p) = Some start ->
        LSystem.step iter
          (LSystem.init start (Some (loaded_rules (load_lines p)))
             (loaded_angle (load_lines p)) (loaded_thickness (load_lines p)))
        = Failed e ls' ->
        e <> AttributeError).
Proof.
  destruct (load_lines_last p) as (Hs & Ha & Ht & Hr).
  repeat split; try assumption.
  intros start iter e ls' _ Hrun ->.
  apply step_loop_attribute_error in Hrun as [Hnone _]. discriminate.
Qed.

Example load_lines_example :
  let p := [PAngle 60; PStart "F"; PRule "F" "FF"; POther "note"; PRule "F" "F+F";
            PStart "F-F"] in
  loaded_start (load_lines p) = Some "F-F"
  /\ loaded_thickness (load_lines p) = 1%Z
  /\ loaded_rules (load_lines p) !! "F" = Some "F+F"
  /\ loaded_start (load_lines [PAngle 60]) = None.
Proof. vm_compute. repeat split. Qed.

(** * Rewriting, generation by generation *)

(** C3: rewriting is compositional in the iteration count.  For
    non-negative [a] and [b], [step (a + b)] leaves the object (and so its
    current symbol sequence) exactly as [step a] followed by [step b] does.
    [step 0] does nothing and [step 1] is one iteration of the loop, whose
    sequence under a rule table [m] is [substitute m] of the old one; so a
    [step iter] that returns leaves the sequence rewritten [iter] times.
    [substitute m] rewrites the empty sequence to itself and a sequence
    [c s] to the replacement of [c] followed by the rewriting of [s]: every
    symbol of the original sequence is replaced once, in order, and no
    replacement is rewritten again within the pass. *)
Theorem C3_rewriting_compositional (self : LSystem.t) (a b : Z) :
  (0 <= a)%Z -> (0 <= b)%Z ->
  LSystem.step (a + b) self = and_then (LSystem.step a self) (LSystem.step b)
  /\ LSystem.state (obj (LSystem.step (a + b) self))
     = LSystem.state (obj (and_then (LSystem.step a self) (LSystem.step b)))
  /\ (forall m, LSystem.rules self = Some m ->
        LSystem.state (obj (LSystem.step_body self)) = substitute m (LSystem.state self)
        /\ substitute m "" = ""
        /\ (forall c s, substitute m (String c s)
              = String.append (default (String c EmptyString) (m !! String c EmptyString))
                              (substitute m s))
        /\ (forall s1 s2, substitute m (String.append s1 s2)
              = String.append (substitute m s1) (substitute m s2)))
  /\ LSystem.step 0 self = Done self
  /\ LSystem.step 1 self = LSystem.step_body self
  /\ (forall m, LSystem.rules self = Some m ->
        LSystem.state (obj (LSystem.step 1 self)) = substitute m (LSystem.state self))
  /\ (forall m iter self', LSystem.rules self = Some m ->
        LSystem.step iter self = Done self' ->
        LSystem.state self'
        = Nat.iter (Z.to_nat iter) (substitute m) (LSystem.state self)).
Proof.
  intros Ha Hb.
  assert (H1 : LSystem.step 1 self = LSystem.step_body self).
  { unfold LSystem.step. change (Z.to_nat 1) with 1%nat. cbn [LSystem.step_loop].
    destruct (LSystem.step_body self); reflexivity. }
  split; [now apply step_add|]. split; [now rewrite step_add|].
  split.
  { intros m Hm. repeat split.
    - now apply step_body_state.
    - apply substitute_cons.
    - apply substitute_app. }
  split; [reflexivity|]. split; [exact H1|]. split.
  - intros m Hm. rewrite H1. now apply step_body_state.
  - intros m iter self' Hm Hrun. exact (step_loop_state_formula _ _ _ _ Hm Hrun).
Qed.

Example fibonacci_generations :
  map (fun k => LSystem.state (obj (LSystem.step k fibonacci))) [1; 2; 3]%Z
  = ["AB"; "ABA"; "ABAAB"].
Proof. vm_compute. reflexivity. Qed.

Lemma C3_rewriting_compositional_witness :
  LSystem.step (1 + 2) fibonacci
  = and_then (LSystem.step 1 fibonacci) (LSystem.step 2).
Proof. apply (C3_rewriting_compositional fibonacci 1 2); lia. Defined.

(** * Two runs to the same generation *)

Lemma forward_turn_once :
  calls [Step 1] forward_turn
  = Done (LSystem.mk 90 1 "F+" "F+" 1 (Some ∅)
            (Turtle.mk (1, 0)%R (- (PI / 2))%R [] [(0, 0); (1, 0)]%R)).
Proof.
  unfold calls, call, LSystem.step, forward_turn. change (Z.to_nat 1) with 1%nat.
  cbn [LSystem.step_loop]. step_empty_rules.
  unfold Turtle.turn.
  cbn [Turtle.pos Turtle.angle Turtle.states Turtle.vectors LSystem.angle LSystem.reset
       LSystem.set_n LSystem.set_state LSystem.set_turtle].
  replace (0 + radians (- (90)))%R with (- (PI / 2))%R by (unfold radians; lra).
  rewrite cos_0, sin_0. repeat f_equal; lra.
Qed.

Lemma forward_turn_reset_once :
  calls [Step 1; Reset; Step 1] forward_turn
  = Done (LSystem.mk 90 1 "F+" "F+" 1 (Some ∅)
            (Turtle.mk (1, -1)%R (- PI)%R [] [(1, 0); (1, -1)]%R)).
Proof.
  unfold calls, call, LSystem.step, forward_turn. change (Z.to_nat 1) with 1%nat.
  cbn [LSystem.step_loop]. repeat step_empty_rules.
  unfold Turtle.turn.
  cbn [Turtle.pos Turtle.angle Turtle.states Turtle.vectors LSystem.angle LSystem.reset
       LSystem.set_n LSystem.set_state LSystem.set_turtle].
  replace (0 + radians (- (90)))%R with (- (PI / 2))%R by (unfold radians; lra).
  replace (- (PI / 2) + radians (- (90)))%R with (- PI)%R by (unfold radians; lra).
  rewrite cos_neg, sin_neg, cos_PI2, sin_PI2, cos_0, sin_0.
  repeat f_equal; lra.
Qed.

Lemma write_png_two_rows (self : LSystem.t) (p q : R * R) :
  LSystem.get_vectors self = [p; q] ->
  exists sf,
    LSystem.write_png self = Ok sf
    /\ surface_size sf
       = ((Rmax (fst p) (fst q) - Rmin (fst p) (fst q)) * 5 + 10 * 2,
          (Rmax (snd p) (snd q) - Rmin (snd p) (snd q)) * 5 + 10 * 2)%R.
Proof.
  intros Hv.
  destruct (write_png_ok self 1) as (sf & Hsf & _); [now rewrite Hv | lia |].
  exists sf. split; [exact Hsf|].
  destruct (write_png_inv _ _ Hsf) as (x_min & y_min & x_max & y_max & Hb & Hsize & _).
  rewrite (bounds_nonempty _ _ _ Hv) in Hb. injection Hb as <- <- <- <-.
  exact Hsize.
Qed.

(** C9: evaluation at [LSystem("F+", {})].  One run calls [step(1)]; the
    other calls [step(1)], [reset()], [step(1)].  Both return, both are at
    generation 1 with the sequence ["F+"]; the array of rows is
    (0,0)-(1,0) in the first and (1,0)-(1,-1) in the second, and
    [write_png] requests a surface of 25 by 20 for the first and of 20 by 25
    for the second. *)
Theorem C9_reset_changes_output :
  raised (calls [Step 1] forward_turn) = None
  /\ raised (calls [Step 1; Reset; Step 1] forward_turn) = None
  /\ LSystem.n (obj (calls [Step 1] forward_turn)) = 1%Z
  /\ LSystem.n (obj (calls [Step 1; Reset; Step 1] forward_turn)) = 1%Z
  /\ LSystem.state (obj (calls [Step 1] forward_turn)) = "F+"
  /\ LSystem.state (obj (calls [Step 1; Reset; Step 1] forward_turn)) = "F+"
  /\ LSystem.get_vectors (obj (calls [Step 1] forward_turn)) = [(0, 0); (1, 0)]%R
  /\ LSystem.get_vectors (obj (calls [Step 1; Reset; Step 1] forward_turn))
     = [(1, 0); (1, -1)]%R
  /\ (exists sf1 sf2,
        LSystem.write_png (obj (calls [Step 1] forward_turn)) = Ok sf1
        /\ LSystem.write_png (obj (calls [Step 1; Reset; Step 1] forward_turn)) = Ok sf2
        /\ surface_size sf1 = (25, 20)%R
        /\ surface_size sf2 = (20, 25)%R).
Proof.
  rewrite forward_turn_once, forward_turn_reset_once. cbn [raised obj].
  do 8 (split; [reflexivity|]).
  match goal with |- context [LSystem.write_png ?s1] =>
    destruct (write_png_two_rows s1 (0, 0)%R (1, 0)%R eq_refl) as (sf1 & Hsf1 & Hsize1)
  end.
  match goal with |- context [LSystem.write_png (LSystem.mk ?a ?b ?c ?d ?e ?f
                                (Turtle.mk (1, -1)%R ?h ?st ?v))] =>
    destruct (write_png_two_rows
                (LSystem.mk a b c d e f (Turtle.mk (1, -1)%R h st v))
                (1, 0)%R (1, -1)%R eq_refl) as (sf2 & Hsf2 & Hsize2)
  end.
  exists sf1, sf2. split; [exact Hsf1|]. split; [exact Hsf2|].
  rewrite Hsize1, Hsize2. cbn [fst snd]. unfold Rmax, Rmin.
  repeat destruct Rle_dec; split; f_equal; lra.
Qed.

(** * The surface and the lines drawn on it *)


